(** * conda-local: a shallow embedding of [conda_local.api] and [conda_local.external]

    Paths are lists of components; the file system is a finite map from paths
    to nodes; every effect the code performs on the outside world (directory
    creation, writes, HTTP requests, downloads, index rebuilds) is appended to
    a trace.  Python exceptions are the [Err] outcome of a state/error monad
    that keeps the world as it was when the exception was raised. *)

From Stdlib Require Import ZArith Ascii String List Sorting.Sorted Lia.
From stdpp Require Import base gmap list strings.
Import ListNotations.
Open Scope string_scope.
Open Scope list_scope.

(* ------------------------------------------------------------------------- *)
(** ** Data model *)

(** [conda.exports.PackageRecord], the fields the code reads. *)
Record PackageRecord := mkRecord {
  subdir : string;
  name : string;
  version : string;
  build : string;
  build_number : Z;
  fn : string;
  url : string;
  sha256 : option string;
  size : option Z;
  channel : string
}.

Definition path := list string.

(** A node of the file system: a directory or a regular file with its bytes. *)
Inductive node := Dir | File (bytes : string).

Inductive exn :=
  | UnavailableInvalidChannel
  | HTTPError (status : Z)
  | FileNotFoundError (p : path)
  | FileExistsError (p : path)
  | IsADirectoryError (p : path)
  | JSONDecodeError
  | KeyError (k : string)
  | ChecksumMismatchError (p : path)
  | CondaHTTPError (u : string)
  | TypeError (msg : string).

(** Observable effects, in the order they happen. *)
Inductive event :=
  | EMkdir (p : path)
  | ETouch (p : path)
  | EWrite (p : path) (bytes : string)
  | EOpenRW (p : path)
  | EGet (u : string)
  | EDownload (u : string) (p : path)
  | ELog (msg : string)
  | ETar (archive : path) (members : list (gmap path node))
  | EIndex (target : path) (patch_generator : option path) (progress : bool).

Record world := mkWorld { fs : gmap path node; trace : list event }.

Inductive outcome (A : Type) :=
  | Ok (a : A) (w : world)
  | Err (e : exn) (w : world).
Arguments Ok {A} a w.
Arguments Err {A} e w.

(** Computations of the Python code: run on a world, return or raise. *)
Definition M (A : Type) := world -> outcome A.

Definition ret {A} (a : A) : M A := fun w => Ok a w.
Definition raise {A} (e : exn) : M A := fun w => Err e w.
Definition bind {A B} (m : M A) (k : A -> M B) : M B :=
  fun w => match m w with Ok a w' => k a w' | Err e w' => Err e w' end.
(** [try: m except e: h e] *)
Definition try_except {A} (m : M A) (h : exn -> M A) : M A :=
  fun w => match m w with Ok a w' => Ok a w' | Err e w' => h e w' end.

Declare Scope py_scope.
Delimit Scope py_scope with py.
Notation "x <- m ;; k" := (bind m (fun x => k))
  (at level 100, m at next level, right associativity) : py_scope.
Notation "m ;;; k" := (bind m (fun _ => k))
  (at level 100, right associativity) : py_scope.
Open Scope py_scope.

Definition get_world : M world := fun w => Ok w w.
Definition emit (ev : event) : M unit :=
  fun w => Ok tt (mkWorld (fs w) (trace w ++ [ev])).

Fixpoint mapM_ {A} (f : A -> M unit) (xs : list A) : M unit :=
  match xs with
  | [] => ret tt
  | x :: xs' => f x ;;; mapM_ f xs'
  end.

(* ------------------------------------------------------------------------- *)
(** ** The grouping utility ([conda_local.grouping]) *)

Section Grouping.
Context {K V : Type} `{EqDecision K}.

(** Modelled from the spec: [conda_local.grouping.groupby] is not in the
    sources.  "For each item, compute its key and append the item to the
    bucket for that key, creating the bucket on first use. Bucket order is
    insertion order"; an absent key yields an empty bucket. *)
Definition Grouping := list (K * list V).

Fixpoint group_insert (k : K) (v : V) (g : Grouping) : Grouping :=
  match g with
  | [] => [(k, [v])]
  | (k', vs) :: g' =>
      if decide (k = k') then (k', vs ++ [v]) :: g' else (k', vs) :: group_insert k v g'
  end.

Definition groupby (items : list V) (key : V -> K) : Grouping :=
  fold_left (fun g v => group_insert (key v) v g) items [].

Definition group_keys (g : Grouping) : list K := map fst g.

Fixpoint group_get (g : Grouping) (k : K) : list V :=
  match g with
  | [] => []
  | (k', vs) :: g' => if decide (k = k') then vs else group_get g' k
  end.

(** [a.keys() - b.keys()] *)
Definition keys_difference (a b : list K) : list K :=
  List.filter (fun k => negb (bool_decide (k ∈ b))) a.

End Grouping.

(* ------------------------------------------------------------------------- *)
(** ** [compare_records] *)

Definition record_key := (string * string * string * string * Z)%type.

Definition no_channel_key (record : PackageRecord) : record_key :=
  (subdir record, name record, version record, build record, build_number record).

(** [compare_records] of src/external.py.  The two sets it returns are
    modelled as lists holding their members: only membership in them is
    meaningful, not their order or repetitions (a Python set also merges
    records that [PackageRecord]'s own equality identifies, which this model
    does not decide). *)
Definition compare_records (left right : list PackageRecord)
    : list PackageRecord * list PackageRecord :=
  let left_group := groupby left no_channel_key in
  let right_group := groupby right no_channel_key in
  let only_in_left :=
    flat_map (group_get left_group)
      (keys_difference (group_keys left_group) (group_keys right_group)) in
  let only_in_right :=
    flat_map (group_get right_group)
      (keys_difference (group_keys right_group) (group_keys left_group)) in
  (only_in_left, only_in_right).

(* ------------------------------------------------------------------------- *)
(** ** The file system (pathlib, shutil) *)

Definition parent (p : path) : path := removelast p.
Definition basename (p : path) : string := List.last p "".

(** [pathlib.Path(s)]: split at "/", dropping empty and "." components; an
    absolute path keeps its root as a first "/" component. *)
Fixpoint split_slash (s : string) (cur : string) : list string :=
  match s with
  | EmptyString => [cur]
  | String c s' =>
      if Ascii.eqb c "/"%char then cur :: split_slash s' EmptyString
      else split_slash s' (cur ++ String c EmptyString)%string
  end.

Definition Path (s : string) : path :=
  let parts := List.filter (fun c => negb (String.eqb c "") && negb (String.eqb c "."))
                 (split_slash s "") in
  match s with
  | String "/" _ => "/" :: parts
  | _ => parts
  end.

(** [a.relative_to(b)] for [a] below [b]. *)
Definition relative_to (a b : path) : path := drop (length b) a.

Definition lookup_node (p : path) : M (option node) :=
  fun w => Ok (match p with [] => Some Dir | _ => fs w !! p end) w.

Definition is_dir_node (n : option node) : bool :=
  match n with Some Dir => true | _ => false end.

Definition is_file_node (n : option node) : bool :=
  match n with Some (File _) => true | _ => false end.

(** [p.exists()] *)
Definition path_exists (p : path) : M bool :=
  n <- lookup_node p ;; ret (bool_decide (is_Some n)).

(** [p.read_bytes()] *)
Definition read_bytes (p : path) : M string :=
  n <- lookup_node p ;;
  match n with
  | Some (File b) => ret b
  | Some Dir => raise (IsADirectoryError p)
  | None => raise (FileNotFoundError p)
  end.

(** [p.write_bytes(data)]: opening for writing needs the parent directory. *)
Definition write_bytes (p : path) (data : string) : M unit :=
  par <- lookup_node (parent p) ;;
  n <- lookup_node p ;;
  if negb (is_dir_node par) then raise (FileNotFoundError p)
  else if is_dir_node n then raise (IsADirectoryError p)
  else fun w => Ok tt (mkWorld (<[p := File data]> (fs w)) (trace w ++ [EWrite p data])).

Definition mkdir_one (q : path) : M unit :=
  fun w =>
    match fs w !! q with
    | Some (File _) => Err (FileExistsError q) w
    | Some Dir => Ok tt w
    | None => Ok tt (mkWorld (<[q := Dir]> (fs w)) (trace w))
    end.

Definition prefixes (p : path) : list path := map (fun n => take n p) (seq 1 (length p)).

(** [p.mkdir(parents=True, exist_ok=True)] *)
Definition mkdir_p (p : path) : M unit :=
  mapM_ mkdir_one (prefixes p) ;;; emit (EMkdir p).

(** [p.touch(exist_ok=True)] *)
Definition touch (p : path) : M unit :=
  par <- lookup_node (parent p) ;;
  n <- lookup_node p ;;
  match n with
  | Some _ => emit (ETouch p)
  | None =>
      if negb (is_dir_node par) then raise (FileNotFoundError p)
      else fun w => Ok tt (mkWorld (<[p := File ""]> (fs w)) (trace w ++ [ETouch p]))
  end.

(** [shutil.copy(src, dst)]: a directory destination receives the file
    under its base name; the destination's parent must exist. *)
Definition shutil_copy (src dst : path) : M unit :=
  data <- read_bytes src ;;
  n <- lookup_node dst ;;
  let dst := if is_dir_node n then dst ++ [basename src] else dst in
  write_bytes dst data.

(** [root.glob("**/*")]: every path strictly below [root], in listing order
    (taken as a snapshot of the tree when the loop starts). *)
Definition glob_all (root : path) : M (list path) :=
  fun w => Ok (List.filter (fun q => bool_decide (root `prefix_of` q /\ length root < length q))
                 (map fst (map_to_list (fs w)))) w.

Fixpoint mapM {A B} (f : A -> M B) (xs : list A) : M (list B) :=
  match xs with
  | [] => ret []
  | x :: xs' => y <- f x ;; ys <- mapM f xs' ;; ret (y :: ys)
  end.

(* ------------------------------------------------------------------------- *)
(** ** The outside world: conda, conda-build and the network *)

(** What the code obtains from the external engines and the network.
    [channel_records ch subdirs] is the record stream of a channel ([None]:
    conda raises [UnavailableInvalidChannel]); [finder_search] the resolved
    closure of the dependency finder; [channel_base_url] the first URL of
    [conda.models.channel.all_channel_urls]; [http_get] the status and body of
    a GET; [url_content] what conda's downloader receives from a URL;
    [conda_index target patch_generator progress] what
    [conda_build.api.update_index] makes of the file system when it rebuilds
    the index of [target] (it writes the index files below [target]). *)
Record Env := mkEnv {
  current_subdirs : list string;
  channel_records : string -> list string -> option (list PackageRecord);
  finder_search : list string -> list string -> list string -> list PackageRecord;
  channel_base_url : list string -> string -> string;
  http_get : string -> Z * string;
  url_content : string -> option string;
  sha256_hex : string -> string;
  path_uri : path -> string;
  tmpdir : path;
  conda_index : path -> option path -> bool -> gmap path node -> gmap path node
}.

Definition PATCH_INSTRUCTIONS := "patch_instructions.json".

(** A Python generator: a computation that runs only when it is consumed. *)
Definition Generator (A : Type) := M (list A).

(** [OneOrMoreStrings]: a bare string or an iterable of strings. *)
Inductive OneOrMore := PyStr (s : string) | PyList (xs : list string).

(* ------------------------------------------------------------------------- *)
(** ** JSON documents ([json.load] / [json.dump]) *)

#[local] Set Warnings "-register-all".

(** JSON values; objects keep their keys in order, without duplicates. *)
Inductive json :=
  | JNull
  | JBool (b : bool)
  | JInt (n : Z)
  | JStr (s : string)
  | JArr (xs : list json)
  | JObj (kvs : list (string * json)).

Definition dq : string := String (Ascii.ascii_of_nat 34) EmptyString.

Fixpoint digits_of_nat (fuel n : nat) (acc : string) : string :=
  match fuel with
  | O => acc
  | S f =>
      let d := String (Ascii.ascii_of_nat (48 + Nat.modulo n 10)) EmptyString in
      if Nat.ltb n 10 then (d ++ acc)%string else digits_of_nat f (Nat.div n 10) (d ++ acc)%string
  end.

Definition str_of_Z (n : Z) : string :=
  if (n <? 0)%Z then ("-" ++ digits_of_nat (S (Z.to_nat (- n))) (Z.to_nat (- n)) "")%string
  else digits_of_nat (S (Z.to_nat n)) (Z.to_nat n) "".

Fixpoint join (sep : string) (xs : list string) : string :=
  match xs with
  | [] => ""
  | [x] => x
  | x :: xs' => (x ++ sep ++ join sep xs')%string
  end.

(** [json.dump] with its default separators [", "] and [": "] (strings are
    written without escapes, so ASCII text without quotes or backslashes). *)
Fixpoint json_dumps (j : json) : string :=
  match j with
  | JNull => "null"
  | JBool true => "true"
  | JBool false => "false"
  | JInt n => str_of_Z n
  | JStr s => (dq ++ s ++ dq)%string
  | JArr xs => ("[" ++ join ", " (map json_dumps xs) ++ "]")%string
  | JObj kvs =>
      ("{" ++ join ", " (map (fun kv => dq ++ fst kv ++ dq ++ ": " ++ json_dumps (snd kv)) kvs)
       ++ "}")%string
  end.

(** [d[k] = v] on a dict: an existing key keeps its place. *)
Fixpoint obj_set (kvs : list (string * json)) (k : string) (v : json) : list (string * json) :=
  match kvs with
  | [] => [(k, v)]
  | (k', v') :: kvs' => if String.eqb k k' then (k', v) :: kvs' else (k', v') :: obj_set kvs' k v
  end.

Fixpoint obj_get (kvs : list (string * json)) (k : string) : option json :=
  match kvs with
  | [] => None
  | (k', v') :: kvs' => if String.eqb k k' then Some v' else obj_get kvs' k
  end.

Definition is_ws (c : ascii) : bool :=
  match nat_of_ascii c with 32 | 9 | 10 | 13 => true | _ => false end.

Fixpoint skip_ws (l : list ascii) : list ascii :=
  match l with
  | c :: l' => if is_ws c then skip_ws l' else l
  | [] => []
  end.

Fixpoint parse_str (l : list ascii) (acc : list ascii) : option (string * list ascii) :=
  match l with
  | [] => None
  | c :: l' =>
      if Nat.eqb (nat_of_ascii c) 34 then Some (string_of_list_ascii (rev acc), l')
      else if Nat.eqb (nat_of_ascii c) 92 then None   (* escapes: outside this model *)
      else parse_str l' (c :: acc)
  end.

Definition is_digit (c : ascii) : bool := Nat.leb 48 (nat_of_ascii c) && Nat.leb (nat_of_ascii c) 57.

Fixpoint parse_nat (l : list ascii) (acc : nat) : nat * list ascii :=
  match l with
  | c :: l' => if is_digit c then parse_nat l' (acc * 10 + (nat_of_ascii c - 48)) else (acc, l)
  | [] => (acc, [])
  end.

Fixpoint prefix_lit (lit : list ascii) (l : list ascii) : option (list ascii) :=
  match lit, l with
  | [], _ => Some l
  | a :: lit', c :: l' => if Ascii.eqb a c then prefix_lit lit' l' else None
  | _, [] => None
  end.

(** A JSON parser for the documents of this model (no escapes, no floats). *)
Fixpoint parse_value (fuel : nat) (l : list ascii) : option (json * list ascii) :=
  match fuel with
  | O => None
  | S f =>
      match skip_ws l with
      | [] => None
      | c :: l' =>
          match nat_of_ascii c with
          | 123 =>
              match skip_ws l' with
              | c' :: l'' => if Nat.eqb (nat_of_ascii c') 125 then Some (JObj [], l'')
                             else parse_members f (skip_ws l') []
              | [] => None
              end
          | 91 =>
              match skip_ws l' with
              | c' :: l'' => if Nat.eqb (nat_of_ascii c') 93 then Some (JArr [], l'')
                             else parse_elems f l' []
              | [] => None
              end
          | 34 => match parse_str l' [] with Some (s, r) => Some (JStr s, r) | None => None end
          | 45 => match l' with
                  | d :: _ => if is_digit d then let '(n, r) := parse_nat l' 0 in Some (JInt (- Z.of_nat n), r)
                              else None
                  | [] => None
                  end
          | 116 => match prefix_lit (list_ascii_of_string "true") (c :: l') with Some r => Some (JBool true, r) | None => None end
          | 102 => match prefix_lit (list_ascii_of_string "false") (c :: l') with Some r => Some (JBool false, r) | None => None end
          | 110 => match prefix_lit (list_ascii_of_string "null") (c :: l') with Some r => Some (JNull, r) | None => None end
          | _ => if is_digit c then let '(n, r) := parse_nat (c :: l') 0 in Some (JInt (Z.of_nat n), r) else None
          end
      end
  end
with parse_elems (fuel : nat) (l : list ascii) (acc : list json) : option (json * list ascii) :=
  match fuel with
  | O => None
  | S f =>
      match parse_value f l with
      | None => None
      | Some (v, r) =>
          match skip_ws r with
          | c :: r' =>
              if Nat.eqb (nat_of_ascii c) 44 then parse_elems f r' (acc ++ [v])
              else if Nat.eqb (nat_of_ascii c) 93 then Some (JArr (acc ++ [v]), r')
              else None
          | [] => None
          end
      end
  end
with parse_members (fuel : nat) (l : list ascii) (acc : list (string * json))
    : option (json * list ascii) :=
  match fuel with
  | O => None
  | S f =>
      match skip_ws l with
      | c :: l' =>
          if negb (Nat.eqb (nat_of_ascii c) 34) then None else
          match parse_str l' [] with
          | None => None
          | Some (k, r) =>
              match skip_ws r with
              | c2 :: r2 =>
                  if negb (Nat.eqb (nat_of_ascii c2) 58) then None else
                  match parse_value f r2 with
                  | None => None
                  | Some (v, r3) =>
                      match skip_ws r3 with
                      | c3 :: r4 =>
                          if Nat.eqb (nat_of_ascii c3) 44 then parse_members f r4 (obj_set acc k v)
                          else if Nat.eqb (nat_of_ascii c3) 125 then Some (JObj (obj_set acc k v), r4)
                          else None
                      | [] => None
                      end
                  end
              | [] => None
              end
          end
      | [] => None
      end
  end.

(** [json.load]: one value, then only white space. *)
Definition json_loads (s : string) : option json :=
  let l := list_ascii_of_string s in
  match parse_value (S (length l)) l with
  | Some (v, r) => match skip_ws r with [] => Some v | _ => None end
  | None => None
  end.

(** An optional iterable argument: a sized collection (list, tuple, set) is
    false when empty; an iterator or generator object is always true. *)
Inductive PyIterable (A : Type) := PySeq (xs : list A) | PyIterator (xs : list A).
Arguments PySeq {A} xs.
Arguments PyIterator {A} xs.

Definition py_truthy {A} (o : option (PyIterable A)) : bool :=
  match o with
  | None => false
  | Some (PySeq xs) => negb (bool_decide (xs = []))
  | Some (PyIterator _) => true
  end.

Definition py_elements {A} (it : PyIterable A) : list A :=
  match it with PySeq xs => xs | PyIterator xs => xs end.

(** [sorted(records, key=lambda rec: rec.fn)]: Python's sort is stable, so
    it agrees with this insertion sort on every input. *)
Fixpoint insert_by_fn (r : PackageRecord) (l : list PackageRecord) : list PackageRecord :=
  match l with
  | [] => [r]
  | y :: l' => if String.leb (fn r) (fn y) then r :: l else y :: insert_by_fn r l'
  end.

Fixpoint sorted_by_fn (l : list PackageRecord) : list PackageRecord :=
  match l with
  | [] => []
  | x :: l' => insert_by_fn x (sorted_by_fn l')
  end.

Section Api.
Context (env : Env).

(** [_ensure_list]: a string becomes a one-element list, never its characters. *)
Definition _ensure_list (items : OneOrMore) : list string :=
  match items with
  | PyStr s => [s]
  | PyList xs => xs
  end.

(** [_ensure_subdirs]; [get_current_subdirs()] when absent. *)
Definition _ensure_subdirs (subdirs : option OneOrMore) : list string :=
  match subdirs with
  | None => current_subdirs env
  | Some s => _ensure_list s
  end.

(** Modelled from the spec: [iter_channels] (imported by api.py, absent from
    src/external.py) is the full-channel iteration of every channel,
    concatenated across channels; an unavailable channel raises
    [UnavailableInvalidChannel]. *)
Fixpoint iter_channels (channels : list string) (subdirs : list string)
    : Generator PackageRecord :=
  match channels with
  | [] => ret []
  | ch :: chs =>
      match channel_records env ch subdirs with
      | None => raise UnavailableInvalidChannel
      | Some rs => rest <- iter_channels chs subdirs ;; ret (rs ++ rest)
      end
  end.

(** [iterate] is a generator function: calling it runs nothing. *)
Definition iterate (channels : OneOrMore) (subdirs : option OneOrMore)
    : Generator PackageRecord :=
  let channels := _ensure_list channels in
  let subdirs := _ensure_subdirs subdirs in
  iter_channels channels subdirs.

(** Modelled from the spec: [DependencyFinder(channels, subdirs).search(specs)]
    ([conda_local.deps] is not in the sources) returns the resolved closure. *)
Definition query (channels specs : OneOrMore) (subdirs : option OneOrMore)
    : M (list PackageRecord) :=
  let channels := _ensure_list channels in
  let subdirs := _ensure_subdirs subdirs in
  let specs := _ensure_list specs in
  ret (finder_search env channels subdirs specs).

(** [compare_records] consumes its arguments: forcing a generator here runs it. *)
Definition compare_records_iter (left right : Generator PackageRecord)
    : M (list PackageRecord * list PackageRecord) :=
  l <- left ;; r <- right ;; ret (compare_records l r).

Definition diff (local : path) (upstream specs : OneOrMore) (subdirs : option OneOrMore)
    : M (list PackageRecord * list PackageRecord) :=
  let upstream := _ensure_list upstream in
  let subdirs := _ensure_subdirs subdirs in
  let specs := _ensure_list specs in
  local_records <-
    try_except (ret (iterate (PyStr (path_uri env local)) (Some (PyList subdirs))))
      (fun e => match e with
                | UnavailableInvalidChannel => ret (ret [])
                | e => raise e
                end) ;;
  upstream_records <- query (PyList upstream) (PyList specs) (Some (PyList subdirs)) ;;
  rr <- compare_records_iter local_records (ret upstream_records) ;;
  let '(removed, added) := rr in
  ret (added, removed).

(** [requests.get(u)] followed by [response.raise_for_status()]. *)
Definition requests_get (u : string) : M string :=
  emit (EGet u) ;;;
  let '(status, content) := http_get env u in
  if (400 <=? status)%Z && (status <? 600)%Z then raise (HTTPError status) else ret content.

(** Modelled from the spec: [download_patch_instructions(channels, destination,
    subdir)] (imported by api.py, absent from src/external.py) does what the
    spec's [fetch_patch_instructions] does without packages to remove:
    GET [patch_instructions.json] at the base URL of the channels for the
    subdir, raising on a non-success status, then write the body to
    [destination/subdir/patch_instructions.json], creating directories. *)
Definition download_patch_instructions (channels : list string) (destination : path)
    (subdir : string) : M unit :=
  let base_url := channel_base_url env channels subdir in
  let u := (base_url ++ "/" ++ PATCH_INSTRUCTIONS)%string in
  content <- requests_get u ;;
  mkdir_p destination ;;;
  let instructions := destination ++ [subdir; PATCH_INSTRUCTIONS] in
  mkdir_p (parent instructions) ;;;
  write_bytes instructions content.

Definition verify_file (p : path) (record : PackageRecord) : M bool :=
  file_bytes <- read_bytes p ;;
  let file_size := Z.of_nat (String.length file_bytes) in
  let file_hash := sha256_hex env file_bytes in
  ret (bool_decide (sha256 record = Some file_hash) && bool_decide (size record = Some file_size)).

(** [conda.exports._download(url, path, sha256=..., size=...)]: fetch the URL
    and write it to [p], refusing content that fails the given checks. *)
Definition conda_download (u : string) (p : path) (sha256_hash : option string)
    (sz : option Z) : M unit :=
  emit (EDownload u p) ;;;
  match url_content env u with
  | None => raise (CondaHTTPError u)
  | Some content =>
      let bad_hash := match sha256_hash with Some h => negb (String.eqb h (sha256_hex env content)) | None => false end in
      let bad_size := match sz with Some n => negb (Z.eqb n (Z.of_nat (String.length content))) | None => false end in
      if bad_hash || bad_size then raise (ChecksumMismatchError p) else write_bytes p content
  end.

Definition download_package (record : PackageRecord) (destination : path) (verify : bool)
    : M unit :=
  let sha256_hash := if verify then sha256 record else None in
  let sz := if verify then size record else None in
  let p := destination ++ [subdir record; fn record] in
  let fetch := mkdir_p (parent p) ;;; conda_download (url record) p sha256_hash sz in
  ex <- path_exists p ;;
  if ex then
    if verify then
      ok <- verify_file p record ;;
      if ok then ret tt   (* skip file *)
      else emit (ELog "Existing file failed verification, will be overwritten") ;;; fetch
    else ret tt           (* skip file *)
  else fetch.

(** [tar.add(src, arcname=arcname)]: the members it adds to the archive, by
    their names in the archive.  A missing [src] raises [FileNotFoundError]
    ([os.lstat]); a file is one member; a directory is added with everything
    below it, under [arcname] and the same relative names. *)
Definition tar_add (src arcname : path) : M (gmap path node) :=
  n <- lookup_node src ;;
  match n with
  | None => raise (FileNotFoundError src)
  | Some (File b) => ret {[ arcname := File b ]}
  | Some Dir =>
      w <- get_world ;;
      ret (<[arcname := Dir]> (list_to_map (omap (fun qn : path * node =>
             if bool_decide (take (length src) qn.1 = src)
             then Some (arcname ++ drop (length src) qn.1, qn.2) else None)
             (map_to_list (fs w)))))
  end.

(** [conda_build.api.update_index(target, patch_generator=..., progress=...)] *)
Definition conda_build_update_index (target : path) (patch_generator : option path)
    (progress : bool) : M unit :=
  fun w => Ok tt (mkWorld (conda_index env target patch_generator progress (fs w))
                          (trace w ++ [EIndex target patch_generator progress])).

(** [update_index] of src/external.py.  The archive is written in a fresh
    temporary directory; its [ETar] event records the members of each
    [tar.add], in order. *)
Definition update_index (target : path) (subdirs : option (list string)) (silent : bool)
    : M unit :=
  let subdirs := match subdirs with None => current_subdirs env | Some s => s end in
  let patches := map (fun s => [s; PATCH_INSTRUCTIONS]) subdirs in
  patch_generator <-
    match patches with
    | [] => ret None
    | _ =>
        let tarball := tmpdir env ++ ["patch_generator.tar.bz2"] in
        members <- mapM (fun patch => tar_add (target ++ patch) patch) patches ;;
        emit (ETar tarball members) ;;;
        ret (Some tarball)
    end ;;
  conda_build_update_index target patch_generator (negb silent).

(** api.py's call [update_index(target, progress=progress, subdirs=subdirs)].
    The [update_index] it imports from src/external.py has the parameters
    [target], [subdirs] and [silent], and no [progress]: Python rejects the
    keyword when it binds the arguments, before the body runs. *)
Definition update_index_progress_call (target : path) (progress : bool)
    (subdirs : list string) : M unit :=
  raise (TypeError "update_index() got an unexpected keyword argument 'progress'").

Definition _ensure_local_channel (p : string) : M path :=
  let p := Path p in
  let noarch_repo := p ++ ["noarch"; "repodata.json"] in
  mkdir_p (parent noarch_repo) ;;;
  touch noarch_repo ;;;
  ret p.

(** [setup_channel] of src/external.py: the same steps as
    [_ensure_local_channel]. *)
Definition setup_channel (p : string) : M path :=
  let p := Path p in
  let noarch_repo := p ++ ["noarch"; "repodata.json"] in
  mkdir_p (parent noarch_repo) ;;;
  touch noarch_repo ;;;
  ret p.

(** [not patch] for the string argument [patch]. *)
Definition py_not_str (s : string) : bool := String.eqb s "".

Definition sync (channels : OneOrMore) (local : string) (specs : OneOrMore)
    (subdirs : option OneOrMore) (index verify : bool) (patch : string) (progress : bool)
    : M unit :=
  let channels := _ensure_list channels in
  local <- _ensure_local_channel local ;;
  let subdirs := _ensure_subdirs subdirs in
  let destination := if py_not_str patch then local else Path patch in
  mkdir_p destination ;;;
  ar <- diff local (PyList channels) specs (Some (PyList subdirs)) ;;
  let added_records := fst ar in
  mapM_ (fun subdir => download_patch_instructions channels destination subdir) subdirs ;;;
  let records := sorted_by_fn added_records in
  mapM_ (fun record => download_package record destination verify) records ;;;
  if index && py_not_str patch
  then update_index_progress_call local progress subdirs
  else ret tt.

(** [merge] takes the environment like the other functions of api.py,
    although none of its steps consults it. *)
#[using="env"]
Definition merge (local patch : string) (index progress : bool) : M unit :=
  let patch := Path patch in
  let local := Path local in
  files <- glob_all patch ;;
  mapM_ (fun file =>
           n <- lookup_node file ;;
           if is_file_node n then shutil_copy file (local ++ relative_to file patch)
           else ret tt) files ;;;
  if index then update_index_progress_call local progress [] else ret tt.

(** [data["remove"].append(package.fn)] *)
Definition append_remove (data : json) (r : PackageRecord) : M json :=
  match data with
  | JObj kvs =>
      match obj_get kvs "remove" with
      | Some (JArr xs) => ret (JObj (obj_set kvs "remove" (JArr (xs ++ [JStr (fn r)]))))
      | _ => raise (KeyError "remove")
      end
  | _ => raise (KeyError "remove")
  end.

Fixpoint append_removes (data : json) (rs : list PackageRecord) : M json :=
  match rs with
  | [] => ret data
  | r :: rs' => d <- append_remove data r ;; append_removes d rs'
  end.

Definition fetch_patch_instructions (channel : string) (destination : path) (subdir : string)
    (packages_to_remove : option (PyIterable PackageRecord)) : M unit :=
  let base_url := channel_base_url env [channel] subdir in
  let u := (base_url ++ "/" ++ PATCH_INSTRUCTIONS)%string in
  content <- requests_get u ;;
  mkdir_p destination ;;;
  let instructions := destination ++ [subdir; PATCH_INSTRUCTIONS] in
  mkdir_p (parent instructions) ;;;
  write_bytes instructions content ;;;
  if py_truthy packages_to_remove then
    (* with instructions.open("r+") as file *)
    emit (EOpenRW instructions) ;;;
    old <- read_bytes instructions ;;
    data <- match json_loads old with Some d => ret d | None => raise JSONDecodeError end ;;
    data <- append_removes data
              (match packages_to_remove with Some it => py_elements it | None => [] end) ;;
    (* file.seek(0); json.dump(data, file): written from offset 0, not truncated *)
    let out := json_dumps data in
    write_bytes instructions (out ++ substring (String.length out) (String.length old) old)%string
  else ret tt.

End Api.

(* ------------------------------------------------------------------------- *)
(** ** Observing runs *)

Definition outcome_world {A} (o : outcome A) : world :=
  match o with Ok _ w => w | Err _ w => w end.

(** The events a run appended to the trace of its initial world. *)
Definition new_events {A} (o : outcome A) (w : world) : list event :=
  drop (length (trace w)) (trace (outcome_world o)).

Definition is_ok {A} (o : outcome A) : Prop :=
  match o with Ok _ _ => True | Err _ _ => False end.


Definition is_index_event (ev : event) : Prop :=
  match ev with EIndex _ _ _ => True | _ => False end.

(** The target paths of the downloads, in order. *)
Fixpoint downloads (evs : list event) : list path :=
  match evs with
  | [] => []
  | EDownload _ p :: evs' => p :: downloads evs'
  | _ :: evs' => downloads evs'
  end.

(** Every event of a run of [m] satisfies [P]. *)
Definition emits_only {A} (P : event -> Prop) (m : M A) : Prop :=
  forall w, exists evs, trace (outcome_world (m w)) = trace w ++ evs /\ Forall P evs.

(** A successful run of [m] performs an event satisfying [Q]. *)
Definition ok_emits {A} (Q : event -> Prop) (m : M A) : Prop :=
  forall w a w', m w = Ok a w' -> exists ev, In ev (new_events (Ok a w') w) /\ Q ev.

Definition no_download (ev : event) : Prop :=
  match ev with EDownload _ _ => False | _ => True end.

(** The file names of the downloads of a run of [m] satisfy [S]. *)
Definition download_names_satisfy {A} (S : list string -> Prop) (m : M A) : Prop :=
  forall w, exists evs, trace (outcome_world (m w)) = trace w ++ evs /\
    S (map basename (downloads evs)).


Definition http_bad (env : Env) (u : string) : bool :=
  let status := fst (http_get env u) in ((400 <=? status)%Z && (status <? 600)%Z).



Definition patch_instruction_event (destination : path) (subdir : string) (ev : event) : Prop :=
  (exists u, ev = EGet u) \/ ev = EMkdir destination \/ ev = EMkdir (destination ++ [subdir]) \/
  exists d, ev = EWrite (destination ++ [subdir; PATCH_INSTRUCTIONS]) d.

Definition package_event (record : PackageRecord) (destination : path) (ev : event) : Prop :=
  ev = EMkdir (destination ++ [subdir record]) \/
  (exists u, ev = EDownload u (destination ++ [subdir record; fn record])) \/
  (exists d, ev = EWrite (destination ++ [subdir record; fn record]) d) \/
  exists msg, ev = ELog msg.

Definition bootstrap_event (local : string) (ev : event) : Prop :=
  ev = EMkdir (Path local ++ ["noarch"]) \/ ev = ETouch (Path local ++ ["noarch"; "repodata.json"]).


(** A run of [m] changes the file system at most at the paths [S]. *)
Definition modifies_only {A} (S : path -> Prop) (m : M A) : Prop :=
  forall w q, ~ S q -> fs (outcome_world (m w)) !! q = fs w !! q.

(** Where [merge] copies a file [f] of the patch directory. *)
Definition merge_destination (local patch : string) (f : path) : path :=
  Path local ++ relative_to f (Path patch).



(* ------------------------------------------------------------------------- *)
(** ** A concrete setting *)

Module Example.

Definition nl : string := String (Ascii.ascii_of_nat 10) EmptyString.

Definition numpy : PackageRecord :=
  mkRecord "linux-64" "numpy" "1.0" "0" 0 "numpy-1.0-0.tar.bz2"
    "https://conda.example/main/linux-64/numpy-1.0-0.tar.bz2" None None "main".

Definition abc : PackageRecord :=
  mkRecord "noarch" "abc" "1.0" "0" 0 "abc-1.0-0.tar.bz2"
    "https://conda.example/main/noarch/abc-1.0-0.tar.bz2" None None "main".

(** [patch_instructions.json] as served, pretty-printed with an indent of 2. *)
Definition pretty_instructions : string :=
  ("{" ++ nl ++ "  " ++ dq ++ "remove" ++ dq ++ ": []" ++ nl ++ "}")%string.

Definition uri (p : path) : string := ("file:///" ++ join "/" p)%string.

(** A local mirror at [m] and an upstream channel [main] whose query for
    [numpy] resolves to [numpy] and its dependency [abc]; any other local
    path is not a readable channel. *)
Definition env : Env := {|
  current_subdirs := ["linux-64"; "noarch"];
  channel_records := fun ch _ => if String.eqb ch (uri ["m"]) then Some [] else None;
  finder_search := fun _ _ _ => [numpy; abc];
  channel_base_url := fun _ s => ("https://conda.example/main/" ++ s)%string;
  http_get := fun _ => (200%Z, pretty_instructions);
  url_content := fun _ => Some "package";
  sha256_hex := fun _ => "0";
  path_uri := uri;
  tmpdir := ["tmp"];
  conda_index := fun target _ _ fs => <[target ++ ["noarch"; "repodata.json"] := File "{}"]> fs
|}.

(** The same setting with a channel that answers every request with
    [404 Not Found]. *)
Definition env_404 : Env := {|
  current_subdirs := current_subdirs env;
  channel_records := channel_records env;
  finder_search := finder_search env;
  channel_base_url := channel_base_url env;
  http_get := fun _ => (404%Z, "Not Found");
  url_content := url_content env;
  sha256_hex := sha256_hex env;
  path_uri := path_uri env;
  tmpdir := tmpdir env;
  conda_index := conda_index env
|}.

Definition empty_world : world := mkWorld ∅ [].

Definition world_of (entries : list (path * node)) : world :=
  mkWorld (list_to_map entries) [].

(** A local mirror [m] holding patch instructions, and an empty patch
    directory [p]. *)
Definition index_world : world :=
  world_of [(["m"], Dir); (["m"; "noarch"], Dir); (["m"; "noarch"; "repodata.json"], File "");
            (["m"; "noarch"; PATCH_INSTRUCTIONS], File "{}"); (["p"], Dir)].

(** A local mirror [m] and a patch directory [p] holding one patch file. *)
Definition merge_world : world :=
  world_of [(["m"], Dir); (["m"; "linux-64"], Dir); (["p"], Dir); (["p"; "linux-64"], Dir);
            (["p"; "linux-64"; PATCH_INSTRUCTIONS], File "x")].

End Example.

(* ========================================================================= *)
(** * Theorems *)

(* ------------------------------------------------------------------------- *)
(** ** Grouping lemmas *)

Section GroupingFacts.
Context {K V : Type} `{EqDecision K}.
Implicit Types (g : @Grouping K V) (k : K) (v : V).

Lemma group_get_insert g k k' v :
  group_get (group_insert k v g) k' =
  if decide (k' = k) then group_get g k' ++ [v] else group_get g k'.
Proof.
  induction g as [|[k0 vs] g IH]; simpl.
  - by destruct (decide (k' = k)).
  - destruct (decide (k = k0)) as [->|Hne]; simpl.
    + destruct (decide (k' = k0)); done.
    + rewrite IH. destruct (decide (k' = k0)) as [->|]; [|done].
      destruct (decide (k0 = k)); [congruence|done].
Qed.

Lemma group_keys_insert g k k' v :
  In k' (group_keys (group_insert k v g)) <-> k' = k \/ In k' (group_keys g).
Proof.
  induction g as [|[k0 vs] g IH]; simpl.
  - intuition.
  - destruct (decide (k = k0)) as [->|]; simpl; [intuition|].
    rewrite IH. intuition.
Qed.

Lemma groupby_get_aux (key : V -> K) (items : list V) g k v :
  In v (group_get (fold_left (fun g v => group_insert (key v) v g) items g) k) <->
  In v (group_get g k) \/ (In v items /\ key v = k).
Proof.
  revert g. induction items as [|x items IH]; intros g; simpl.
  - intuition.
  - rewrite IH, group_get_insert.
    destruct (decide (k = key x)) as [->|Hne].
    + rewrite in_app_iff. simpl. naive_solver.
    + naive_solver.
Qed.

Lemma groupby_get (key : V -> K) (items : list V) k v :
  In v (group_get (groupby items key) k) <-> In v items /\ key v = k.
Proof. unfold groupby. rewrite groupby_get_aux. simpl. intuition. Qed.

Lemma groupby_keys_aux (key : V -> K) (items : list V) g k :
  In k (group_keys (fold_left (fun g v => group_insert (key v) v g) items g)) <->
  In k (group_keys g) \/ exists v, In v items /\ key v = k.
Proof.
  revert g. induction items as [|x items IH]; intros g; simpl.
  - split; [auto|]. intros [H|[v [[] _]]]. done.
  - rewrite IH, group_keys_insert. split.
    + intros [[->|H]|[v [Hv <-]]]; [right; exists x; auto|left; done|right; exists v; auto].
    + intros [H|[v [[->|Hv] <-]]]; [left; right; done|left; left; done|right; exists v; auto].
Qed.

Lemma groupby_keys (key : V -> K) (items : list V) k :
  In k (group_keys (groupby items key)) <-> exists v, In v items /\ key v = k.
Proof. unfold groupby. rewrite groupby_keys_aux. simpl. intuition. Qed.

Lemma keys_difference_In (a b : list K) k :
  In k (keys_difference a b) <-> In k a /\ ~ In k b.
Proof.
  unfold keys_difference. rewrite filter_In, negb_true_iff, bool_decide_eq_false.
  rewrite list_elem_of_In. tauto.
Qed.

End GroupingFacts.

Lemma compare_records_fst_In (left right : list PackageRecord) r :
  In r (compare_records left right).1 <->
  In r left /\ ~ exists r', In r' right /\ no_channel_key r' = no_channel_key r.
Proof.
  unfold compare_records; simpl. rewrite in_flat_map. split.
  - intros [k [Hk Hr]]. apply keys_difference_In in Hk as [_ Hk].
    apply groupby_get in Hr as [Hr <-]. split; [done|].
    intros Hex. apply Hk, groupby_keys. done.
  - intros [Hr Hno]. exists (no_channel_key r). split.
    + apply keys_difference_In. split.
      * apply groupby_keys. eauto.
      * rewrite groupby_keys. done.
    + apply groupby_get. done.
Qed.

Lemma compare_records_swap (left right : list PackageRecord) :
  compare_records right left = ((compare_records left right).2, (compare_records left right).1).
Proof. reflexivity. Qed.

Lemma compare_records_snd_In (left right : list PackageRecord) r :
  In r (compare_records left right).2 <->
  In r right /\ ~ exists r', In r' left /\ no_channel_key r' = no_channel_key r.
Proof.
  change ((compare_records left right).2) with ((compare_records right left).1).
  apply compare_records_fst_In.
Qed.


(** C2: [compare_records] identifies records by (subdir, name, version,
    build, build_number) only: a record is in a returned difference exactly
    when its key occurs on its side alone, so two records with the same key
    on both sides, whatever their channel, URL or hashes, are in neither. *)
Theorem compare_records_identity_ignores_channel (left right : list PackageRecord) :
  (forall r, In r (compare_records left right).1 <->
     In r left /\ ~ exists r', In r' right /\ no_channel_key r' = no_channel_key r) /\
  (forall r, In r (compare_records left right).2 <->
     In r right /\ ~ exists r', In r' left /\ no_channel_key r' = no_channel_key r) /\
  (forall r1 r2, In r1 left -> In r2 right -> no_channel_key r1 = no_channel_key r2 ->
     ~ In r1 (compare_records left right).1 /\ ~ In r1 (compare_records left right).2 /\
     ~ In r2 (compare_records left right).1 /\ ~ In r2 (compare_records left right).2).
Proof.
  split; [intros r; apply compare_records_fst_In|].
  split; [intros r; apply compare_records_snd_In|].
  intros r1 r2 H1 H2 Hk.
  rewrite !compare_records_fst_In, !compare_records_snd_In.
  repeat split; intros [_ Hn]; apply Hn; eauto.
Qed.

Lemma _ensure_list_str (s : string) : _ensure_list (PyStr s) = [s].
Proof. reflexivity. Qed.

(** C9: every operation of the API gives the same result for a bare string
    [s] and for the list [[s]], in each of its [channels], [subdirs] and
    [specs] arguments ([merge] has none of them). *)
Theorem singular_plural_normalization (env : Env) (s : string) :
  (forall local specs subdirs,
     diff env local (PyStr s) specs subdirs = diff env local (PyList [s]) specs subdirs) /\
  (forall local upstream subdirs,
     diff env local upstream (PyStr s) subdirs = diff env local upstream (PyList [s]) subdirs) /\
  (forall local upstream specs,
     diff env local upstream specs (Some (PyStr s)) = diff env local upstream specs (Some (PyList [s]))) /\
  (forall subdirs, iterate env (PyStr s) subdirs = iterate env (PyList [s]) subdirs) /\
  (forall channels, iterate env channels (Some (PyStr s)) = iterate env channels (Some (PyList [s]))) /\
  (forall specs subdirs, query env (PyStr s) specs subdirs = query env (PyList [s]) specs subdirs) /\
  (forall channels subdirs, query env channels (PyStr s) subdirs = query env channels (PyList [s]) subdirs) /\
  (forall channels specs,
     query env channels specs (Some (PyStr s)) = query env channels specs (Some (PyList [s]))) /\
  (forall local specs subdirs index verify patch progress,
     sync env (PyStr s) local specs subdirs index verify patch progress =
     sync env (PyList [s]) local specs subdirs index verify patch progress) /\
  (forall channels local subdirs index verify patch progress,
     sync env channels local (PyStr s) subdirs index verify patch progress =
     sync env channels local (PyList [s]) subdirs index verify patch progress) /\
  (forall channels local specs index verify patch progress,
     sync env channels local specs (Some (PyStr s)) index verify patch progress =
     sync env channels local specs (Some (PyList [s])) index verify patch progress).
Proof. repeat split. Qed.

(* ------------------------------------------------------------------------- *)
(** ** Trace invariants of computations *)

Section TraceFacts.
Implicit Types (P : event -> Prop).

Lemma emits_only_ret {A} P (a : A) : emits_only P (ret a).
Proof. intros w. exists []. simpl. rewrite app_nil_r. auto. Qed.

Lemma emits_only_raise {A} P e : emits_only P (@raise A e).
Proof. intros w. exists []. simpl. rewrite app_nil_r. auto. Qed.

Lemma emits_only_lookup_node P p : emits_only P (lookup_node p).
Proof. intros w. exists []. simpl. rewrite app_nil_r. auto. Qed.

Lemma emits_only_get_world P : emits_only P get_world.
Proof. intros w. exists []. simpl. rewrite app_nil_r. auto. Qed.

Lemma emits_only_emit P ev : P ev -> emits_only P (emit ev).
Proof. intros HP w. exists [ev]. simpl. auto. Qed.

Lemma emits_only_mono {A} P Q (m : M A) :
  (forall ev, P ev -> Q ev) -> emits_only P m -> emits_only Q m.
Proof.
  intros HPQ Hm w. destruct (Hm w) as [evs [Ht HF]]. exists evs. split; [done|].
  eapply Forall_impl; eauto.
Qed.

Lemma emits_only_bind {A B} P (m : M A) (k : A -> M B) :
  emits_only P m -> (forall a, emits_only P (k a)) -> emits_only P (bind m k).
Proof.
  intros Hm Hk w. unfold bind. destruct (Hm w) as [evs1 [Ht1 HF1]].
  destruct (m w) as [a w1|e w1] eqn:E; simpl in *.
  - destruct (Hk a w1) as [evs2 [Ht2 HF2]]. exists (evs1 ++ evs2). split.
    + rewrite Ht2, Ht1, app_assoc. done.
    + apply Forall_app; auto.
  - exists evs1. auto.
Qed.

Lemma emits_only_try {A} P (m : M A) (h : exn -> M A) :
  emits_only P m -> (forall e, emits_only P (h e)) -> emits_only P (try_except m h).
Proof.
  intros Hm Hh w. unfold try_except. destruct (Hm w) as [evs1 [Ht1 HF1]].
  destruct (m w) as [a w1|e w1] eqn:E; simpl in *.
  - exists evs1. auto.
  - destruct (Hh e w1) as [evs2 [Ht2 HF2]]. exists (evs1 ++ evs2). split.
    + rewrite Ht2, Ht1, app_assoc. done.
    + apply Forall_app; auto.
Qed.

Lemma emits_only_mapM_ {A} P (f : A -> M unit) (xs : list A) :
  (forall x, In x xs -> emits_only P (f x)) -> emits_only P (mapM_ f xs).
Proof.
  induction xs as [|x xs IH]; intros Hf; simpl.
  - apply emits_only_ret.
  - apply emits_only_bind; [apply Hf; left; done|]. intros _. apply IH.
    intros y Hy. apply Hf. right. done.
Qed.

Lemma emits_only_mapM {A B} P (f : A -> M B) (xs : list A) :
  (forall x, In x xs -> emits_only P (f x)) -> emits_only P (mapM f xs).
Proof.
  induction xs as [|x xs IH]; intros Hf; simpl.
  - apply emits_only_ret.
  - apply emits_only_bind; [apply Hf; left; done|]. intros y.
    apply emits_only_bind; [apply IH; intros z Hz; apply Hf; right; done|].
    intros ys. apply emits_only_ret.
Qed.

(** A run with no events of interest only grows the trace. *)
Lemma emits_only_trace {A} P (m : M A) w :
  emits_only P m -> exists evs, trace (outcome_world (m w)) = trace w ++ evs /\ Forall P evs.
Proof. intros H. apply H. Qed.

Lemma new_events_app {A} (o : outcome A) w evs :
  trace (outcome_world o) = trace w ++ evs -> new_events o w = evs.
Proof. intros H. unfold new_events. rewrite H. apply drop_app_length. Qed.

End TraceFacts.

(** Unfold one layer of a computation built with [bind]. *)
Ltac eo_step :=
  match goal with
  | |- emits_only _ (bind _ _) => apply emits_only_bind; [|intro]
  | |- emits_only _ (ret _) => apply emits_only_ret
  | |- emits_only _ (raise _) => apply emits_only_raise
  | |- emits_only _ (lookup_node _) => apply emits_only_lookup_node
  | |- emits_only _ get_world => apply emits_only_get_world
  | |- emits_only _ (emit _) => apply emits_only_emit
  | |- emits_only _ (try_except _ _) => apply emits_only_try; [|intro]
  | |- emits_only _ (if ?b then _ else _) => destruct b
  | |- emits_only _ (match ?x with _ => _ end) => destruct x
  end.

Lemma emits_only_write_bytes p data :
  emits_only (fun ev => ev = EWrite p data) (write_bytes p data).
Proof.
  unfold write_bytes. repeat eo_step; try done.
  intros w. exists [EWrite p data]. simpl. auto.
Qed.

Lemma emits_only_mkdir_p p : emits_only (fun ev => ev = EMkdir p) (mkdir_p p).
Proof.
  unfold mkdir_p. apply emits_only_bind; [|intros; apply emits_only_emit; done].
  apply emits_only_mapM_. intros q _ w. exists []. rewrite app_nil_r.
  unfold mkdir_one. split; [|done]. destruct (fs w !! q) as [[|]|]; done.
Qed.

Lemma emits_only_touch p : emits_only (fun ev => ev = ETouch p) (touch p).
Proof.
  unfold touch. repeat eo_step; try done.
  intros w. exists [ETouch p]. simpl. auto.
Qed.

Lemma emits_only_read_bytes P p : emits_only P (read_bytes p).
Proof. unfold read_bytes. repeat eo_step. Qed.

Lemma emits_only_requests_get env u : emits_only (fun ev => ev = EGet u) (requests_get env u).
Proof. unfold requests_get. repeat eo_step; done. Qed.

Lemma parent_app2 (p : path) (a b : string) : parent (p ++ [a; b]) = p ++ [a].
Proof. unfold parent. rewrite removelast_app; [done|discriminate]. Qed.

Section ApiTraces.
Context (env : Env).

Lemma emits_only_iter_channels P channels subdirs :
  emits_only P (iter_channels env channels subdirs).
Proof.
  induction channels as [|ch chs IH]; simpl; repeat eo_step; auto.
Qed.

(** A run of [diff]: the generator over the local channel is only consumed
    inside [compare_records], after the [try] block has been left. *)
Lemma diff_run local upstream specs subdirs w :
  diff env local upstream specs subdirs w =
  match iter_channels env [path_uri env local] (_ensure_subdirs env subdirs) w with
  | Ok l w1 =>
      let '(removed, added) :=
        compare_records l (finder_search env (_ensure_list upstream)
                             (_ensure_subdirs env subdirs) (_ensure_list specs)) in
      Ok (added, removed) w1
  | Err e w1 => Err e w1
  end.
Proof.
  cbv beta iota zeta delta [diff query compare_records_iter iterate bind try_except ret _ensure_list _ensure_subdirs].
  match goal with |- context [iter_channels ?e ?c ?s ?w] => destruct (iter_channels e c s w) end;
    [|done].
  match goal with |- context [compare_records ?a ?b] => destruct (compare_records a b) end.
  done.
Qed.

(** [diff] only reads. *)
Lemma emits_only_diff P local upstream specs subdirs :
  emits_only P (diff env local upstream specs subdirs).
Proof.
  intros w. rewrite diff_run.
  destruct (emits_only_iter_channels P [path_uri env local] (_ensure_subdirs env subdirs) w)
    as [evs [Ht HF]].
  destruct (iter_channels env [path_uri env local] (_ensure_subdirs env subdirs) w).
  - match goal with |- context [compare_records ?a ?b] => destruct (compare_records a b) end.
    simpl in *. eauto.
  - simpl in *. eauto.
Qed.

Lemma emits_only_download_patch_instructions channels destination subdir :
  emits_only (patch_instruction_event destination subdir)
    (download_patch_instructions env channels destination subdir).
Proof.
  unfold download_patch_instructions. eo_step.
  { eapply emits_only_mono; [|apply emits_only_requests_get]. intros ev ->. left; eauto. }
  eo_step.
  { eapply emits_only_mono; [|apply emits_only_mkdir_p]. intros ev ->. right; left; done. }
  eo_step.
  { eapply emits_only_mono; [|apply emits_only_mkdir_p]. intros ev ->.
    rewrite parent_app2. right; right; left; done. }
  eapply emits_only_mono; [|apply emits_only_write_bytes]. intros ev ->. right; right; right; eauto.
Qed.

Lemma emits_only_conda_download u p h sz :
  emits_only (fun ev => ev = EDownload u p \/ exists d, ev = EWrite p d) (conda_download env u p h sz).
Proof.
  unfold conda_download. eo_step; [apply emits_only_emit; left; done|].
  repeat eo_step.
  eapply emits_only_mono; [|apply emits_only_write_bytes]. intros ev ->. right; eauto.
Qed.

Lemma emits_only_download_package record destination verify :
  emits_only (package_event record destination) (download_package env record destination verify).
Proof.
  assert (Hm : emits_only (package_event record destination)
                 (mkdir_p (parent (destination ++ [subdir record; fn record])))).
  { eapply emits_only_mono; [|apply emits_only_mkdir_p]. intros ev ->.
    rewrite parent_app2. left; done. }
  assert (Hc : forall h sz, emits_only (package_event record destination)
                 (conda_download env (url record) (destination ++ [subdir record; fn record]) h sz)).
  { intros h sz. eapply emits_only_mono; [|apply emits_only_conda_download].
    intros ev [->|[d ->]]; [right; left|right; right; left]; eauto. }
  unfold download_package, path_exists, verify_file.
  repeat eo_step; try apply Hm; try apply Hc; try apply emits_only_read_bytes.
  right; right; right; eauto.
Qed.

Lemma emits_only_ensure_local_channel local :
  emits_only (bootstrap_event local) (_ensure_local_channel local).
Proof.
  unfold _ensure_local_channel. eo_step.
  - eapply emits_only_mono; [|apply emits_only_mkdir_p]. intros ev ->.
    rewrite parent_app2. left; done.
  - eo_step; [|apply emits_only_ret].
    eapply emits_only_mono; [|apply emits_only_touch]. intros ev ->. right; done.
Qed.

End ApiTraces.

(* ------------------------------------------------------------------------- *)
(** ** Ordering file names *)

Lemma string_compare_le_trans (a b c : string) :
  String.compare a b <> Gt -> String.compare b c <> Gt -> String.compare a c <> Gt.
Proof.
  revert b c. induction a as [|x a IH]; intros [|y b] [|z c]; simpl; try congruence.
  unfold Ascii.compare.
  destruct (N.compare_spec (N_of_ascii x) (N_of_ascii y)) as [Hxy|Hxy|Hxy];
  destruct (N.compare_spec (N_of_ascii y) (N_of_ascii z)) as [Hyz|Hyz|Hyz];
  destruct (N.compare_spec (N_of_ascii x) (N_of_ascii z)) as [Hxz|Hxz|Hxz];
  try congruence; try lia; eauto.
Qed.

Lemma string_compare_refl (a : string) : String.compare a a = Eq.
Proof.
  induction a as [|x a IH]; simpl; [done|].
  unfold Ascii.compare. rewrite N.compare_refl. done.
Qed.

Lemma string_leb_iff (a b : string) : String.leb a b = true <-> String.compare a b <> Gt.
Proof.
  unfold String.leb. destruct (String.compare a b); split; intros H; done.
Qed.

Lemma string_leb_trans (a b c : string) :
  String.leb a b = true -> String.leb b c = true -> String.leb a c = true.
Proof. rewrite !string_leb_iff. apply string_compare_le_trans. Qed.

Lemma string_leb_refl (a : string) : String.leb a a = true.
Proof. apply string_leb_iff. rewrite string_compare_refl. done. Qed.

Lemma string_ltb_leb_false (a b : string) :
  String.ltb a b = true -> String.leb b a = true -> False.
Proof.
  unfold String.ltb. rewrite string_leb_iff, (String.compare_antisym b a).
  destruct (String.compare a b); simpl; congruence.
Qed.

Definition fn_le (r1 r2 : PackageRecord) : Prop := String.leb (fn r1) (fn r2) = true.

Lemma insert_by_fn_perm r l : insert_by_fn r l ≡ₚ r :: l.
Proof.
  induction l as [|y l IH]; simpl; [done|].
  destruct (String.leb (fn r) (fn y)); [done|].
  rewrite IH. apply perm_swap.
Qed.

Lemma sorted_by_fn_perm l : sorted_by_fn l ≡ₚ l.
Proof.
  induction l as [|x l IH]; simpl; [done|].
  rewrite insert_by_fn_perm, IH. done.
Qed.

Lemma insert_by_fn_sorted r l :
  StronglySorted fn_le l -> StronglySorted fn_le (insert_by_fn r l).
Proof.
  induction 1 as [|y l Hl IH Hy]; simpl.
  - repeat constructor.
  - destruct (String.leb (fn r) (fn y)) eqn:E.
    + constructor; [constructor; done|].
      constructor; [done|]. eapply Forall_impl; [exact Hy|].
      intros z Hz. unfold fn_le in *. eapply string_leb_trans; eauto.
    + constructor; [done|].
      apply Forall_forall. intros z Hz.
      rewrite (insert_by_fn_perm r l) in Hz.
      apply elem_of_cons in Hz as [->|Hz].
      * unfold fn_le. destruct (String.leb_total (fn y) (fn r)) as [H|H]; [done|congruence].
      * rewrite Forall_forall in Hy. apply Hy. done.
Qed.

Lemma sorted_by_fn_sorted l : StronglySorted fn_le (sorted_by_fn l).
Proof.
  induction l as [|x l IH]; simpl; [constructor|]. apply insert_by_fn_sorted. done.
Qed.

(* ------------------------------------------------------------------------- *)
(** ** The events of [sync] *)



Section SyncTraces.
Context (env : Env).


(** File names of downloads *)

Lemma downloads_app (a b : list event) : downloads (a ++ b) = downloads a ++ downloads b.
Proof. induction a as [|[] a IH]; simpl; rewrite ?IH; done. Qed.

Lemma basename_app2 (p : path) (a b : string) : basename (p ++ [a; b]) = b.
Proof. unfold basename. change [a; b] with ([a] ++ [b]). rewrite app_assoc, last_last. done. Qed.

Lemma download_names_bind {A B} (S1 S2 S : list string -> Prop) (m : M A) (k : A -> M B) :
  download_names_satisfy S1 m -> (forall a, download_names_satisfy S2 (k a)) ->
  (forall n1 n2, S1 n1 -> S2 n2 -> S (n1 ++ n2)) -> (forall n1, S1 n1 -> S n1) ->
  download_names_satisfy S (bind m k).
Proof.
  intros Hm Hk H12 H1 w. unfold bind. destruct (Hm w) as [evs1 [Ht1 HS1]].
  destruct (m w) as [a w1|e w1]; simpl in *.
  - destruct (Hk a w1) as [evs2 [Ht2 HS2]]. exists (evs1 ++ evs2). split.
    + rewrite Ht2, Ht1, app_assoc. done.
    + rewrite downloads_app, map_app. auto.
  - exists evs1. auto.
Qed.

Lemma download_names_mono {A} (S S' : list string -> Prop) (m : M A) :
  (forall ns, S ns -> S' ns) -> download_names_satisfy S m -> download_names_satisfy S' m.
Proof. intros H Hm w. destruct (Hm w) as [evs [Ht HS]]. eauto. Qed.

Lemma download_names_of_emits_only {A} (P : event -> Prop) (Q : string -> Prop) (m : M A) :
  emits_only P m -> (forall u p, P (EDownload u p) -> Q (basename p)) ->
  download_names_satisfy (Forall Q) m.
Proof.
  intros Hm HQ w. destruct (Hm w) as [evs [Ht HF]]. exists evs. split; [done|].
  clear Ht. induction HF as [|ev evs Hev HF IH]; simpl; [constructor|].
  destruct ev; simpl; auto. constructor; eauto.
Qed.

Lemma no_downloads_nil {A} (P : event -> Prop) (m : M A) :
  emits_only P m -> (forall u p, ~ P (EDownload u p)) -> download_names_satisfy (fun ns => ns = []) m.
Proof.
  intros Hm HP w. destruct (Hm w) as [evs [Ht HF]]. exists evs. split; [done|].
  clear Ht. induction HF as [|ev evs Hev HF IH]; simpl; [done|].
  destruct ev; simpl; auto. exfalso. eapply HP; eauto.
Qed.

Lemma StronglySorted_app {A} (R : A -> A -> Prop) (l1 l2 : list A) :
  StronglySorted R l1 -> StronglySorted R l2 ->
  (forall a b, In a l1 -> In b l2 -> R a b) -> StronglySorted R (l1 ++ l2).
Proof.
  induction 1 as [|x l1 Hl1 IH Hx]; intros Hl2 Hab; simpl; [done|].
  constructor.
  - apply IH; [done|]. intros a b Ha Hb. apply Hab; [right|]; done.
  - apply Forall_app. split; [done|].
    apply Forall_forall. intros b Hb. apply Hab; [left; done|]. apply list_elem_of_In. done.
Qed.

Lemma StronglySorted_const (c : string) (l : list string) :
  Forall (fun n => n = c) l -> StronglySorted (fun a b => String.leb a b = true) l.
Proof.
  induction 1 as [|x l Hx Hl IH]; constructor; [done|].
  eapply Forall_impl; [exact Hl|]. intros y ->. subst. apply string_leb_refl.
Qed.

Lemma download_names_loop destination verify (xs : list PackageRecord) :
  StronglySorted fn_le xs ->
  download_names_satisfy
    (fun ns => StronglySorted (fun a b => String.leb a b = true) ns /\
               Forall (fun n => exists r, In r xs /\ n = fn r) ns)
    (mapM_ (fun r => download_package env r destination verify) xs).
Proof.
  induction 1 as [|x xs Hxs IH Hx]; simpl.
  - intros w. exists []. simpl. rewrite app_nil_r. split; [done|]. split; constructor.
  - assert (Hd : download_names_satisfy (Forall (fun n => n = fn x))
                   (download_package env x destination verify)).
    { eapply download_names_of_emits_only; [apply emits_only_download_package|].
      intros u p [H|[[u' H]|[[d H]|[msg H]]]]; try discriminate.
      injection H as -> ->. apply basename_app2. }
    eapply download_names_bind; [exact Hd|intros _; exact IH| |].
    + intros n1 n2 H1 [H2s H2f]. split.
      * apply StronglySorted_app; [eapply StronglySorted_const; eauto|done|].
        intros a b Ha Hb. rewrite Forall_forall in H1. rewrite <- list_elem_of_In in Ha.
        rewrite (H1 a Ha). rewrite Forall_forall in H2f. rewrite <- list_elem_of_In in Hb.
        destruct (H2f b Hb) as [r [Hr ->]].
        rewrite Forall_forall in Hx. apply Hx. apply list_elem_of_In. done.
      * apply Forall_app. split.
        -- eapply Forall_impl; [exact H1|]. intros n ->. exists x. split; [left|]; done.
        -- eapply Forall_impl; [exact H2f|]. intros n [r [Hr ->]]. exists r. split; [right|]; done.
    + intros n1 H1. split; [eapply StronglySorted_const; eauto|].
      eapply Forall_impl; [exact H1|]. intros n ->. exists x. split; [left|]; done.
Qed.

End SyncTraces.

Lemma download_names_pre {A B} (S : list string -> Prop) (m : M A) (k : A -> M B) :
  S [] -> download_names_satisfy (fun ns => ns = []) m ->
  (forall a, download_names_satisfy S (k a)) -> download_names_satisfy S (bind m k).
Proof.
  intros H0 Hm Hk. eapply download_names_bind; [exact Hm|exact Hk| |].
  - intros n1 n2 -> H2. done.
  - intros n1 ->. done.
Qed.

Lemma download_names_post {A B} (S : list string -> Prop) (m : M A) (k : A -> M B) :
  download_names_satisfy S m -> (forall a, download_names_satisfy (fun ns => ns = []) (k a)) ->
  download_names_satisfy S (bind m k).
Proof.
  intros Hm Hk. eapply download_names_bind; [exact Hm|exact Hk| |].
  - intros n1 n2 H1 ->. rewrite app_nil_r. done.
  - done.
Qed.

Lemma download_names_sync env channels local specs subdirs index verify patch progress :
  download_names_satisfy (StronglySorted (fun a b => String.leb a b = true))
    (sync env channels local specs subdirs index verify patch progress).
Proof.
  unfold sync.
  apply download_names_pre; [constructor| |].
  { eapply no_downloads_nil; [apply emits_only_ensure_local_channel|].
    intros u p [H|H]; discriminate. }
  intros l. apply download_names_pre; [constructor| |].
  { eapply no_downloads_nil; [apply emits_only_mkdir_p|]. intros u p H; discriminate. }
  intros _. apply download_names_pre; [constructor| |].
  { eapply no_downloads_nil; [apply (emits_only_diff env (fun _ => False))|]. auto. }
  intros ar. apply download_names_pre; [constructor| |].
  { apply (no_downloads_nil no_download); [|intros u p H; exact H].
    apply emits_only_mapM_. intros s _.
    eapply emits_only_mono; [|apply emits_only_download_patch_instructions].
    intros ev [[u' ->]|[->|[->|[d ->]]]]; exact I. }
  intros _. apply download_names_post.
  { eapply download_names_mono; [|apply download_names_loop, sorted_by_fn_sorted].
    intros ns [H _]. exact H. }
  intros _. destruct (index && py_not_str patch); intros w; exists []; simpl;
    rewrite app_nil_r; done.
Qed.

Lemma StronglySorted_nth_error {A} (R : A -> A -> Prop) (l : list A) i j a b :
  StronglySorted R l -> (i < j)%nat -> nth_error l i = Some a -> nth_error l j = Some b -> R a b.
Proof.
  intros Hs. revert i j. induction Hs as [|x l Hl IH Hx]; intros i j Hij Hi Hj.
  - destruct i; discriminate.
  - destruct j as [|j]; [lia|]. simpl in Hj. destruct i as [|i]; simpl in Hi.
    + injection Hi as <-. rewrite Forall_forall in Hx. apply Hx.
      apply list_elem_of_In. eapply nth_error_In; eauto.
    + eapply IH; [|exact Hi|exact Hj]. lia.
Qed.

(* ------------------------------------------------------------------------- *)
(** ** Events of successful runs *)

Lemma ok_bind_inv {A B} (m : M A) (k : A -> M B) w b w' :
  bind m k w = Ok b w' -> exists a w1, m w = Ok a w1 /\ k a w1 = Ok b w'.
Proof. unfold bind. destruct (m w); [eauto|discriminate]. Qed.







Lemma ok_emits_mono {A} (Q Q' : event -> Prop) (m : M A) :
  (forall ev, Q ev -> Q' ev) -> ok_emits Q m -> ok_emits Q' m.
Proof. intros H Hm w a w' Hr. destruct (Hm w a w' Hr) as [ev [? ?]]. eauto. Qed.







Lemma requests_get_value env u w c w' :
  requests_get env u w = Ok c w' -> c = snd (http_get env u).
Proof.
  unfold requests_get, bind, emit. destruct (http_get env u) as [st c0]. simpl.
  destruct (_ && _); [discriminate|]. intros H. injection H. done.
Qed.


(* ------------------------------------------------------------------------- *)
(** ** Failing requests *)










(* ------------------------------------------------------------------------- *)
(** ** Where [sync] writes *)


(* ------------------------------------------------------------------------- *)
(** ** Patch instructions fetched by [sync] *)


(* ------------------------------------------------------------------------- *)
(** ** Download order of [sync] *)

(** C8: the downloads of a [sync] run happen in order of file names: a
    download whose file name sorts strictly before another's comes first. *)
Theorem sync_downloads_in_filename_order env channels local specs subdirs index verify patch progress
    w i j p q :
  nth_error (downloads (new_events (sync env channels local specs subdirs index verify patch progress w) w)) i = Some p ->
  nth_error (downloads (new_events (sync env channels local specs subdirs index verify patch progress w) w)) j = Some q ->
  String.ltb (basename p) (basename q) = true -> (i < j)%nat.
Proof.
  destruct (download_names_sync env channels local specs subdirs index verify patch progress w)
    as [evs [Ht Hs]].
  rewrite (new_events_app _ _ evs Ht). intros Hi Hj Hlt.
  assert (Hi' : nth_error (map basename (downloads evs)) i = Some (basename p))
    by (rewrite nth_error_map, Hi; done).
  assert (Hj' : nth_error (map basename (downloads evs)) j = Some (basename q))
    by (rewrite nth_error_map, Hj; done).
  destruct (Nat.lt_trichotomy i j) as [Hl|[->|Hl]]; [done| |]; exfalso.
  - rewrite Hi in Hj. injection Hj as ->.
    apply (string_ltb_leb_false (basename q) (basename q)); [done|apply string_leb_refl].
  - apply (string_ltb_leb_false (basename p) (basename q)); [done|].
    exact (StronglySorted_nth_error (fun a b => String.leb a b = true) _ j i _ _ Hs Hl Hj' Hi').
Qed.

(** C8 at the run of [Example.env]: [abc] is downloaded before [numpy]. *)
Lemma sync_downloads_in_filename_order_witness :
  let run := sync Example.env (PyStr "main") "m" (PyStr "numpy") None false false "" false
               Example.empty_world in
  nth_error (downloads (new_events run Example.empty_world)) 0 =
    Some ["m"; "noarch"; "abc-1.0-0.tar.bz2"] /\
  nth_error (downloads (new_events run Example.empty_world)) 1 =
    Some ["m"; "linux-64"; "numpy-1.0-0.tar.bz2"] /\
  String.ltb (basename ["m"; "noarch"; "abc-1.0-0.tar.bz2"])
    (basename ["m"; "linux-64"; "numpy-1.0-0.tar.bz2"]) = true /\
  (0 < 1)%nat.
Proof.
  split; [vm_compute; reflexivity|]. split; [vm_compute; reflexivity|].
  split; [vm_compute; reflexivity|].
  apply (sync_downloads_in_filename_order Example.env (PyStr "main") "m" (PyStr "numpy") None
           false false "" false Example.empty_world 0 1
           ["m"; "noarch"; "abc-1.0-0.tar.bz2"] ["m"; "linux-64"; "numpy-1.0-0.tar.bz2"]);
    vm_compute; reflexivity.
Defined.


(* ------------------------------------------------------------------------- *)
(** ** The local channel in [diff] *)

(** C1: the [try] around [iterate] in [diff] only creates the generator, so
    an unreadable local channel is not treated as an empty one: [diff]
    raises [UnavailableInvalidChannel], leaving the world unchanged. *)
Theorem diff_unavailable_local_propagates env local upstream specs subdirs w :
  channel_records env (path_uri env local) (_ensure_subdirs env subdirs) = None ->
  diff env local upstream specs subdirs w = Err UnavailableInvalidChannel w.
Proof. intros H. rewrite diff_run. simpl. rewrite H. reflexivity. Qed.

Lemma diff_unavailable_local_propagates_witness :
  channel_records Example.env (path_uri Example.env ["bad"]) (_ensure_subdirs Example.env None) = None /\
  diff Example.env ["bad"] (PyStr "main") (PyStr "numpy") None Example.empty_world =
    Err UnavailableInvalidChannel Example.empty_world.
Proof.
  split; [vm_compute; reflexivity|].
  apply diff_unavailable_local_propagates. vm_compute. reflexivity.
Defined.

(* ------------------------------------------------------------------------- *)
(** ** [merge] *)

(** C3: [merge] copies with [shutil.copy], which creates no directories.
    After a [sync] into the patch directory [p] for a fresh local mirror [m],
    [p/linux-64/patch_instructions.json] exists but [m/linux-64] does not,
    and [merge] fails with [FileNotFoundError] on the copy to
    [m/linux-64/patch_instructions.json]. *)
Theorem merge_does_not_create_directories :
  match sync Example.env (PyStr "main") "m" (PyStr "numpy") None false false "p" false
          Example.empty_world with
  | Ok _ w1 =>
      fs w1 !! ["p"; "linux-64"; PATCH_INSTRUCTIONS] = Some (File Example.pretty_instructions) /\
      fs w1 !! ["m"; "linux-64"] = None /\
      match merge Example.env "m" "p" false false w1 with
      | Err e _ => e = FileNotFoundError ["m"; "linux-64"; PATCH_INSTRUCTIONS]
      | Ok _ _ => False
      end
  | Err _ _ => False
  end.
Proof. vm_compute. split; [reflexivity|split; reflexivity]. Qed.

Lemma emits_only_glob_all P root : emits_only P (glob_all root).
Proof. intros w. exists []. unfold glob_all. simpl. rewrite app_nil_r. auto. Qed.

(** C5: [merge] with [index] never rebuilds the index of [local]: api.py
    calls [update_index(local, progress=progress, subdirs=[])], and the
    [update_index] of src/external.py has no [progress] parameter, so the
    call raises [TypeError] before its body runs.  A run whose copies
    succeed (those of [merge] without [index]) ends in that [TypeError],
    after the same copies; no run succeeds and none has an index event.
    With [m/linux-64] present and [p/linux-64/patch_instructions.json] in
    the patch, [merge("m", "p", index=True)] copies the file, then raises
    [TypeError]. *)
Theorem merge_index_raises_type_error env local patch progress :
  (forall w w', merge env local patch false progress w = Ok tt w' ->
     merge env local patch true progress w =
       Err (TypeError "update_index() got an unexpected keyword argument 'progress'") w') /\
  (forall w, exists e w', merge env local patch true progress w = Err e w') /\
  emits_only (fun ev => ~ is_index_event ev) (merge env local patch true progress) /\
  merge Example.env "m" "p" true false Example.merge_world =
    Err (TypeError "update_index() got an unexpected keyword argument 'progress'")
      (mkWorld (<[["m"; "linux-64"; PATCH_INSTRUCTIONS] := File "x"]> (fs Example.merge_world))
               [EWrite ["m"; "linux-64"; PATCH_INSTRUCTIONS] "x"]).
Proof.
  assert (Hsplit : forall w, merge env local patch true progress w =
            match merge env local patch false progress w with
            | Ok _ w' => Err (TypeError "update_index() got an unexpected keyword argument 'progress'") w'
            | Err e w' => Err e w'
            end).
  { intros w. unfold merge, bind. cbv zeta.
    destruct (glob_all (Path patch) w) as [files w1|e w1]; [|done].
    destruct (mapM_ _ files w1) as [[] w2|e w2]; done. }
  split; [|split; [|split]].
  - intros w w' H. rewrite Hsplit, H. done.
  - intros w. rewrite Hsplit. destruct (merge env local patch false progress w); eauto.
  - unfold merge. cbv zeta. apply emits_only_bind; [apply emits_only_glob_all|intros files].
    apply emits_only_bind; [|intros _; apply emits_only_raise].
    apply emits_only_mapM_. intros f _. unfold shutil_copy.
    repeat eo_step; try apply emits_only_read_bytes.
    eapply emits_only_mono; [|apply emits_only_write_bytes]. intros ev -> []. 
  - vm_compute. reflexivity.
Qed.

(* ------------------------------------------------------------------------- *)
(** ** [download_package] *)

(** C7: [download_package] works on [destination/subdir/fn]. An existing
    file is kept without a download when [verify] is false, and when
    [verify] is true exactly if its sha256 and its size match the record's;
    otherwise the mismatch is logged and the file fetched again, as is a
    missing file, after creating its parent directories. *)
Theorem download_package_skip_rule (env : Env) (record : PackageRecord) (destination : path)
    (verify : bool) (w : world) :
  let p : path := destination ++ [subdir record; fn record] in
  let fetch := mkdir_p (parent p) ;;;
               conda_download env (url record) p (if verify then sha256 record else None)
                 (if verify then size record else None) in
  match fs w !! p with
  | Some (File b) =>
      if verify then
        (sha256 record = Some (sha256_hex env b) /\
         size record = Some (Z.of_nat (String.length b)) ->
           download_package env record destination verify w = Ok tt w) /\
        (~ (sha256 record = Some (sha256_hex env b) /\
            size record = Some (Z.of_nat (String.length b))) ->
           download_package env record destination verify w =
             (emit (ELog "Existing file failed verification, will be overwritten") ;;; fetch) w)
      else download_package env record destination verify w = Ok tt w
  | Some Dir =>
      download_package env record destination verify w =
        if verify then Err (IsADirectoryError p) w else Ok tt w
  | None => download_package env record destination verify w = fetch w
  end.
Proof.
  cbv zeta. unfold download_package, path_exists, verify_file, read_bytes, lookup_node, bind.
  destruct (destination ++ [subdir record; fn record]) as [|x y] eqn:Ep.
  { destruct destination; discriminate. }
  simpl. case_bool_decide as Hs; destruct verify; cbv beta;
    try change (is_Some (fs w !! ((x :: y) : path))) in Hs;
    try change (~ is_Some (fs w !! ((x :: y) : path))) in Hs.
  - destruct (fs w !! ((x :: y) : path)) as [[|b]|] eqn:En; [| |destruct Hs; discriminate]; simpl.
    + reflexivity.
    + unfold ret. split.
      * intros [H1 H2]. rewrite (bool_decide_eq_true_2 _ H1), (bool_decide_eq_true_2 _ H2).
        reflexivity.
      * intros Hn. destruct (bool_decide (sha256 record = _)) eqn:E1;
          destruct (bool_decide (size record = _)) eqn:E2; try reflexivity.
        apply bool_decide_eq_true_1 in E1, E2. tauto.
  - destruct (fs w !! ((x :: y) : path)) as [[|b]|] eqn:En; [| |destruct Hs; discriminate];
      reflexivity.
  - destruct (fs w !! ((x :: y) : path)) as [[|b]|] eqn:En; [exfalso; apply Hs; eauto..|reflexivity].
  - destruct (fs w !! ((x :: y) : path)) as [[|b]|] eqn:En; [exfalso; apply Hs; eauto..|reflexivity].
Qed.

(* ------------------------------------------------------------------------- *)
(** ** [fetch_patch_instructions] *)

Lemma fetch_patch_instructions_empty_list env channel destination s :
  fetch_patch_instructions env channel destination s (Some (PySeq [])) =
  fetch_patch_instructions env channel destination s None.
Proof. reflexivity. Qed.

(** C10: an empty iterator is truthy, so [fetch_patch_instructions] with
    [packages_to_remove = iter([])] reopens the written file and dumps the
    unchanged document over it from offset 0 without truncating: a
    pretty-printed upstream document becomes [{"remove": []}[]] followed by
    a newline and [}], while without packages to remove it is left as
    received. *)
Theorem fetch_patch_instructions_empty_iterator :
  let q := ["d"; "linux-64"; PATCH_INSTRUCTIONS] in
  match fetch_patch_instructions Example.env "main" ["d"] "linux-64" (Some (PyIterator []))
          Example.empty_world,
        fetch_patch_instructions Example.env "main" ["d"] "linux-64" None Example.empty_world with
  | Ok _ w1, Ok _ w2 =>
      fs w2 !! q = Some (File Example.pretty_instructions) /\
      In (EOpenRW q) (trace w1) /\
      fs w1 !! q = Some (File ("{" ++ dq ++ "remove" ++ dq ++ ": []}[]" ++ Example.nl ++ "}")%string)
  | _, _ => False
  end.
Proof.
  vm_compute. split; [reflexivity|split; [|reflexivity]].
  repeat (first [left; reflexivity | right]).
Qed.

(* ------------------------------------------------------------------------- *)
(** ** What runs change in the file system *)

Section FsFrames.

Lemma mo_ret {A} S (a : A) : modifies_only S (ret a).
Proof. intros w q _. done. Qed.

Lemma mo_raise {A} S e : modifies_only S (@raise A e).
Proof. intros w q _. done. Qed.

Lemma mo_lookup_node S p : modifies_only S (lookup_node p).
Proof. intros w q _. done. Qed.

Lemma mo_emit S ev : modifies_only S (emit ev).
Proof. intros w q _. done. Qed.

Lemma mo_mono {A} (S S' : path -> Prop) (m : M A) :
  (forall q, S q -> S' q) -> modifies_only S m -> modifies_only S' m.
Proof. intros HS Hm w q Hq. apply Hm. intros H. apply Hq, HS, H. Qed.

Lemma mo_bind {A B} S (m : M A) (k : A -> M B) :
  modifies_only S m -> (forall a, modifies_only S (k a)) -> modifies_only S (bind m k).
Proof.
  intros Hm Hk w q Hq. unfold bind. pose proof (Hm w q Hq) as H1.
  destruct (m w) as [a w1|e w1]; simpl in *; [|done].
  rewrite (Hk a w1 q Hq). done.
Qed.

Lemma mo_mapM_ {A} S (f : A -> M unit) (xs : list A) :
  (forall x, In x xs -> modifies_only S (f x)) -> modifies_only S (mapM_ f xs).
Proof.
  induction xs as [|x xs IH]; intros Hf; simpl; [apply mo_ret|].
  apply mo_bind; [apply Hf; left; done|]. intros _. apply IH. intros y Hy. apply Hf. right. done.
Qed.

Lemma mo_mapM {A B} S (f : A -> M B) (xs : list A) :
  (forall x, In x xs -> modifies_only S (f x)) -> modifies_only S (mapM f xs).
Proof.
  induction xs as [|x xs IH]; intros Hf; simpl; [apply mo_ret|].
  apply mo_bind; [apply Hf; left; done|]. intros y.
  apply mo_bind; [apply IH; intros z Hz; apply Hf; right; done|]. intros ys. apply mo_ret.
Qed.

Lemma mo_write_bytes p data : modifies_only (fun q => q = p) (write_bytes p data).
Proof.
  intros w q Hq. unfold write_bytes, bind, lookup_node.
  destruct (negb _); [done|]. destruct (is_dir_node _); [done|]. simpl.
  apply lookup_insert_ne. congruence.
Qed.

Lemma mo_mkdir_one q0 : modifies_only (fun q => q = q0) (mkdir_one q0).
Proof.
  intros w q Hq. unfold mkdir_one. destruct (fs w !! q0) as [[|]|]; simpl; try done.
  apply lookup_insert_ne. congruence.
Qed.

Lemma mo_mkdir_p p : modifies_only (fun q => q ∈ prefixes p) (mkdir_p p).
Proof.
  unfold mkdir_p. apply mo_bind; [|intros; apply mo_emit].
  apply mo_mapM_. intros x Hx. eapply mo_mono; [|apply mo_mkdir_one].
  intros q ->. apply list_elem_of_In. done.
Qed.

Lemma mo_touch p : modifies_only (fun q => q = p) (touch p).
Proof.
  intros w q Hq. unfold touch, bind, lookup_node.
  destruct (match p with [] => _ | _ => _ end); [done|].
  destruct (negb _); [done|]. simpl. apply lookup_insert_ne. congruence.
Qed.

Lemma mo_read_bytes S p : modifies_only S (read_bytes p).
Proof.
  unfold read_bytes. apply mo_bind; [apply mo_lookup_node|].
  intros [[|]|]; first [apply mo_ret|apply mo_raise].
Qed.

Lemma mo_requests_get env S u : modifies_only S (requests_get env u).
Proof.
  unfold requests_get. apply mo_bind; [apply mo_emit|]. intros _.
  destruct (http_get env u). destruct (_ && _); [apply mo_raise|apply mo_ret].
Qed.

Lemma mo_conda_download env u p h sz : modifies_only (fun q => q = p) (conda_download env u p h sz).
Proof.
  unfold conda_download. apply mo_bind; [apply mo_emit|]. intros _.
  destruct (url_content env u); [|apply mo_raise].
  destruct (_ || _); [apply mo_raise|apply mo_write_bytes].
Qed.

(** [prefixes p] are the non-empty prefixes of [p]. *)
Lemma elem_of_prefixes q p : q ∈ prefixes p <-> q <> [] /\ exists r, p = q ++ r.
Proof.
  unfold prefixes. rewrite list_elem_of_In, in_map_iff. split.
  - intros [n [<- Hn]]. apply in_seq in Hn. split.
    + destruct p; simpl in *; [lia|]. destruct n; [lia|]. discriminate.
    + exists (drop n p). symmetry. apply take_drop.
  - intros [Hq [r ->]]. exists (length q). split; [apply take_app_length|].
    apply in_seq. rewrite length_app. destruct q; [done|]. simpl. lia.
Qed.

Lemma lookup_node_cons (p : path) w : p <> [] -> lookup_node p w = Ok (fs w !! p) w.
Proof. destruct p; [done|]. done. Qed.

Lemma mkdir_ones_ok qs w u w' :
  mapM_ mkdir_one qs w = Ok u w' ->
  trace w' = trace w /\
  forall q, fs w' !! q = if bool_decide (q ∈ qs) then Some Dir else fs w !! q.
Proof.
  revert w. induction qs as [|x qs IH]; intros w H; simpl in H.
  - injection H as <- <-. split; [done|]. intros q. rewrite bool_decide_false; [done|].
    apply not_elem_of_nil.
  - unfold bind, mkdir_one in H. destruct (fs w !! x) as [[|b]|] eqn:Ex; [| done |].
    + destruct (IH w H) as [Ht Hq]. split; [done|]. intros q. rewrite Hq.
      case_bool_decide as H1; case_bool_decide as H2; try done.
      * exfalso. apply H2. apply elem_of_cons. right. done.
      * apply elem_of_cons in H2 as [->|H2]; [done|]. done.
    + destruct (IH _ H) as [Ht Hq]. split; [done|]. intros q. rewrite Hq.
      case_bool_decide as H1; case_bool_decide as H2; simpl.
      * done.
      * exfalso. apply H2. apply elem_of_cons. right. done.
      * apply elem_of_cons in H2 as [->|H2]; [|done]. apply lookup_insert_eq.
      * apply lookup_insert_ne. intros ->. apply H2. apply elem_of_cons. left. done.
Qed.

Lemma mkdir_ones_err qs w e w' :
  mapM_ mkdir_one qs w = Err e w' -> exists q b, q ∈ qs /\ fs w !! q = Some (File b).
Proof.
  revert w. induction qs as [|x qs IH]; intros w H; simpl in H; [done|].
  unfold bind, mkdir_one in H. destruct (fs w !! x) as [[|b]|] eqn:Ex.
  - destruct (IH w H) as [q [b [Hq Hb]]]. exists q, b. split; [apply elem_of_cons; right|]; done.
  - exists x, b. split; [apply elem_of_cons; left|]; done.
  - destruct (IH _ H) as [q [b [Hq Hb]]]. simpl in Hb.
    destruct (decide (q = x)) as [->|Hne].
    + rewrite lookup_insert_eq in Hb. discriminate.
    + rewrite lookup_insert_ne in Hb by congruence.
      exists q, b. split; [apply elem_of_cons; right|]; done.
Qed.

Lemma mkdir_p_ok p w u w' :
  mkdir_p p w = Ok u w' ->
  trace w' = trace w ++ [EMkdir p] /\
  forall q, fs w' !! q = if bool_decide (q ∈ prefixes p) then Some Dir else fs w !! q.
Proof.
  unfold mkdir_p, bind. destruct (mapM_ mkdir_one (prefixes p) w) as [a w1|e w1] eqn:E;
    [|done].
  simpl. intros H. injection H as <- <-. simpl.
  destruct (mkdir_ones_ok _ _ _ _ E) as [Ht Hq]. rewrite Ht. done.
Qed.

Lemma mkdir_p_err p w e w' :
  mkdir_p p w = Err e w' -> exists q b, q ∈ prefixes p /\ fs w !! q = Some (File b).
Proof.
  unfold mkdir_p, bind. destruct (mapM_ mkdir_one (prefixes p) w) as [a w1|e1 w1] eqn:E;
    [done|]. intros _. eapply mkdir_ones_err. done.
Qed.

(** [mkdir -p] succeeds exactly when no prefix is a file. *)
Lemma mkdir_p_succeeds p w :
  (forall q b, q ∈ prefixes p -> fs w !! q <> Some (File b)) ->
  exists w', mkdir_p p w = Ok tt w'.
Proof.
  intros H. destruct (mkdir_p p w) as [[] w'|e w'] eqn:E; [eauto|].
  destruct (mkdir_p_err _ _ _ _ E) as [q [b [Hq Hb]]]. exfalso. eapply H; eauto.
Qed.

End FsFrames.

(* ------------------------------------------------------------------------- *)
(** ** [compare_records]: edge cases *)


(** Comparing a record list with itself finds no difference on either side,
    whatever the order or repetitions of its records. *)
Theorem compare_records_self (records : list PackageRecord) :
  compare_records records records = ([], []).
Proof.
  destruct (compare_records records records) as [l r] eqn:E.
  destruct l as [|x l]; [destruct r as [|y r]; [done|]|].
  - exfalso. pose proof (proj1 (compare_records_snd_In records records y)) as H.
    rewrite E in H. destruct H as [Hy Hn]; [left; done|]. apply Hn. eauto.
  - exfalso. pose proof (proj1 (compare_records_fst_In records records x)) as H.
    rewrite E in H. destruct H as [Hx Hn]; [left; done|]. apply Hn. eauto.
Qed.

(** Against an empty right-hand side the records only in the left argument
    are exactly the left records, and no record is only in the right one. *)
Theorem compare_records_empty_right (left : list PackageRecord) :
  (forall r, In r (compare_records left []).1 <-> In r left) /\ (compare_records left []).2 = [].
Proof.
  split; [|unfold compare_records; simpl; done].
  intros r. rewrite compare_records_fst_In. split; [intros [H _]; exact H|].
  intros H. split; [exact H|]. intros [r' [[] _]].
Qed.

(* ------------------------------------------------------------------------- *)
(** ** [setup_channel] *)

Lemma mkdir_ones_no_file qs w u w' :
  mapM_ mkdir_one qs w = Ok u w' -> forall q b, q ∈ qs -> fs w !! q <> Some (File b).
Proof.
  revert w. induction qs as [|x qs IH]; intros w H q b Hq; [by apply not_elem_of_nil in Hq|].
  simpl in H. unfold bind, mkdir_one in H.
  destruct (fs w !! x) as [[|b']|] eqn:Ex; [| done |].
  - apply elem_of_cons in Hq as [->|Hq]; [congruence|]. eapply IH; eauto.
  - apply elem_of_cons in Hq as [->|Hq]; [congruence|].
    destruct (decide (q = x)) as [->|Hne]; [congruence|].
    pose proof (IH _ H q b Hq) as Hb. simpl in Hb.
    rewrite lookup_insert_ne in Hb by congruence. done.
Qed.

Lemma mkdir_p_no_file p w u w' :
  mkdir_p p w = Ok u w' -> forall q b, q ∈ prefixes p -> fs w !! q <> Some (File b).
Proof.
  unfold mkdir_p, bind. destruct (mapM_ mkdir_one (prefixes p) w) eqn:E; [|done].
  intros _. eapply mkdir_ones_no_file. done.
Qed.

Lemma touch_run (p : path) w :
  p <> [] -> parent p <> [] ->
  touch p w =
  match fs w !! p with
  | Some _ => Ok tt (mkWorld (fs w) (trace w ++ [ETouch p]))
  | None =>
      if is_dir_node (fs w !! parent p)
      then Ok tt (mkWorld (<[p := File ""]> (fs w)) (trace w ++ [ETouch p]))
      else Err (FileNotFoundError p) w
  end.
Proof.
  intros Hp Hpar. unfold touch, bind. rewrite !lookup_node_cons by done.
  destruct (fs w !! p); [done|]. destruct (is_dir_node _); done.
Qed.

Lemma app_ne_nil_r {A} (l : list A) x r : l ++ x :: r <> [].
Proof. destruct l; discriminate. Qed.

Lemma not_prefix_longer (q p : path) : length p < length q -> q ∉ prefixes p.
Proof.
  intros Hl Hq. apply elem_of_prefixes in Hq as [_ [r ->]]. rewrite length_app in Hl. lia.
Qed.

(** A run of [setup_channel] when no prefix of [p/noarch] is a file. *)
Lemma setup_channel_run (p : string) w :
  let N : path := Path p ++ ["noarch"] in
  let R : path := Path p ++ ["noarch"; "repodata.json"] in
  (forall q b, q ∈ prefixes N -> fs w !! q <> Some (File b)) ->
  exists w', setup_channel p w = Ok (Path p) w' /\
    trace w' = trace w ++ [EMkdir N; ETouch R] /\
    forall q, fs w' !! q =
      if bool_decide (q ∈ prefixes N) then Some Dir
      else if bool_decide (q = R) then Some (match fs w !! R with Some n => n | None => File "" end)
      else fs w !! q.
Proof.
  intros N R Hfree. destruct (mkdir_p_succeeds N w Hfree) as [w1 E].
  destruct (mkdir_p_ok _ _ _ _ E) as [Ht1 Hq1].
  assert (HR : R ∉ prefixes N).
  { apply not_prefix_longer. subst N R. rewrite !length_app. simpl. lia. }
  assert (HN : N ∈ prefixes N).
  { apply elem_of_prefixes. split; [apply app_ne_nil_r|]. exists []. rewrite app_nil_r. done. }
  unfold setup_channel, bind. cbv beta zeta. fold N R.
  replace (parent R) with N by (symmetry; apply parent_app2). rewrite E.
  rewrite touch_run by (unfold R; try rewrite parent_app2; apply app_ne_nil_r).
  replace (parent R) with N by (symmetry; apply parent_app2).
  rewrite (Hq1 R), (Hq1 N), bool_decide_false, bool_decide_true by done. simpl.
  destruct (fs w !! R) as [n|] eqn:ER; simpl.
  - eexists. split; [reflexivity|]. simpl. rewrite Ht1, <- app_assoc. split; [done|].
    intros q. rewrite Hq1. case_bool_decide; [done|].
    case_bool_decide as HqR; [subst q; done|done].
  - eexists. split; [reflexivity|]. simpl. rewrite Ht1, <- app_assoc. split; [done|].
    intros q. destruct (decide (q = R)) as [->|Hne].
    + rewrite lookup_insert_eq, bool_decide_false, bool_decide_true by done. done.
    + rewrite lookup_insert_ne by congruence. rewrite Hq1.
      rewrite (bool_decide_false (q = R)) by done. case_bool_decide; done.
Qed.

Lemma setup_channel_ok_free (p : string) w a w' :
  setup_channel p w = Ok a w' ->
  forall q b, q ∈ prefixes (Path p ++ ["noarch"]) -> fs w !! q <> Some (File b).
Proof.
  unfold setup_channel, bind. cbv beta zeta. rewrite parent_app2.
  destruct (mkdir_p (Path p ++ ["noarch"]) w) eqn:E; [|done].
  intros _. eapply mkdir_p_no_file. done.
Qed.

(** [setup_channel] (src/external.py): when no prefix of [p/noarch] is a
    file, it succeeds, returns [Path(p)], makes every prefix of [p/noarch] a
    directory, leaves an existing [noarch/repodata.json] as it was (creating
    it empty when absent) and changes no other path. *)
Theorem setup_channel_layout (p : string) (w : world)
    (Hfree : forall q b, q ∈ prefixes (Path p ++ ["noarch"]) -> fs w !! q <> Some (File b)) :
  exists w', setup_channel p w = Ok (Path p) w' /\
    (forall q, q ∈ prefixes (Path p ++ ["noarch"]) -> fs w' !! q = Some Dir) /\
    fs w' !! (Path p ++ ["noarch"; "repodata.json"]) =
      Some (match fs w !! (Path p ++ ["noarch"; "repodata.json"]) with
            | Some n => n | None => File "" end) /\
    (forall q, q ∉ prefixes (Path p ++ ["noarch"]) ->
       q <> Path p ++ ["noarch"; "repodata.json"] -> fs w' !! q = fs w !! q).
Proof.
  destruct (setup_channel_run p w Hfree) as [w' [Hrun [_ Hq]]].
  exists w'. split; [done|]. split; [|split].
  - intros q Hin. rewrite Hq, bool_decide_true by done. done.
  - rewrite Hq, bool_decide_false, bool_decide_true by (try apply not_prefix_longer; try done;
      rewrite !length_app; simpl; lia). done.
  - intros q H1 H2. rewrite Hq, !bool_decide_false by done. done.
Qed.

Lemma setup_channel_layout_witness :
  (forall q b, q ∈ prefixes (Path "m" ++ ["noarch"]) ->
     fs Example.empty_world !! q <> Some (File b)) /\
  exists w', setup_channel "m" Example.empty_world = Ok (Path "m") w' /\
    (forall q, q ∈ prefixes (Path "m" ++ ["noarch"]) -> fs w' !! q = Some Dir) /\
    fs w' !! (Path "m" ++ ["noarch"; "repodata.json"]) =
      Some (match fs Example.empty_world !! (Path "m" ++ ["noarch"; "repodata.json"]) with
            | Some n => n | None => File "" end) /\
    (forall q, q ∉ prefixes (Path "m" ++ ["noarch"]) ->
       q <> Path "m" ++ ["noarch"; "repodata.json"] -> fs w' !! q = fs Example.empty_world !! q).
Proof.
  assert (H : forall q b, q ∈ prefixes (Path "m" ++ ["noarch"]) ->
     fs Example.empty_world !! q <> Some (File b)).
  { intros q b _. simpl. rewrite lookup_empty. discriminate. }
  split; [exact H|]. exact (setup_channel_layout "m" Example.empty_world H).
Defined.

(** Running [setup_channel] again after a successful run returns the same
    path and changes nothing in the file system. *)
Theorem setup_channel_idempotent (p : string) (w w1 : world) (a : path)
    (Hrun : setup_channel p w = Ok a w1) :
  exists w2, setup_channel p w1 = Ok a w2 /\ fs w2 = fs w1.
Proof.
  pose proof (setup_channel_ok_free p w a w1 Hrun) as Hfree.
  destruct (setup_channel_run p w Hfree) as [w1' [Hrun1 [_ Hq1]]].
  rewrite Hrun in Hrun1. injection Hrun1 as -> <-.
  assert (Hfree1 : forall q b, q ∈ prefixes (Path p ++ ["noarch"]) -> fs w1 !! q <> Some (File b)).
  { intros q b Hin. rewrite Hq1, bool_decide_true by done. discriminate. }
  destruct (setup_channel_run p w1 Hfree1) as [w2 [Hrun2 [_ Hq2]]].
  exists w2. split; [done|]. apply map_eq. intros q. rewrite Hq2.
  case_bool_decide as Hin; [rewrite Hq1, bool_decide_true by done; done|].
  case_bool_decide as HR; [|done]. subst q.
  rewrite (Hq1 (Path p ++ ["noarch"; "repodata.json"])), bool_decide_false, bool_decide_true by done.
  done.
Qed.

Lemma setup_channel_idempotent_witness :
  let o := setup_channel "m" Example.empty_world in
  o = Ok ["m"] (outcome_world o) /\
  exists w2, setup_channel "m" (outcome_world o) = Ok ["m"] w2 /\ fs w2 = fs (outcome_world o).
Proof.
  intros o. assert (H : o = Ok ["m"] (outcome_world o)) by (vm_compute; reflexivity).
  split; [exact H|]. exact (setup_channel_idempotent "m" Example.empty_world _ ["m"] H).
Defined.

(* ------------------------------------------------------------------------- *)
(** ** [download_package] *)

(** Unfold one layer of a computation for [modifies_only]. *)
Ltac mo_step :=
  match goal with
  | |- modifies_only _ (bind _ _) => apply mo_bind; [|intro]
  | |- modifies_only _ (ret _) => apply mo_ret
  | |- modifies_only _ (raise _) => apply mo_raise
  | |- modifies_only _ (lookup_node _) => apply mo_lookup_node
  | |- modifies_only _ (emit _) => apply mo_emit
  | |- modifies_only _ (read_bytes _) => apply mo_read_bytes
  | |- modifies_only _ (if ?b then _ else _) => destruct b
  | |- modifies_only _ (match ?x with _ => _ end) => destruct x
  end.

Lemma write_bytes_ok p data w a w' :
  write_bytes p data w = Ok a w' ->
  fs w' = <[p := File data]> (fs w) /\ trace w' = trace w ++ [EWrite p data].
Proof.
  unfold write_bytes, bind, lookup_node.
  destruct (negb _); [done|]. destruct (is_dir_node _); [done|].
  intros H. injection H as <- <-. done.
Qed.

Lemma conda_download_ok env u p h sz w a w' :
  conda_download env u p h sz w = Ok a w' ->
  exists b, fs w' !! p = Some (File b) /\
    (forall h', h = Some h' -> sha256_hex env b = h') /\
    (forall n, sz = Some n -> Z.of_nat (String.length b) = n).
Proof.
  unfold conda_download, bind, emit. destruct (url_content env u) as [b|]; [|done].
  destruct h as [h'|], sz as [n|]; simpl;
  repeat match goal with
  | |- context [negb (String.eqb ?x ?y)] => destruct (String.eqb x y) eqn:?; simpl
  | |- context [negb (Z.eqb ?x ?y)] => destruct (Z.eqb x y) eqn:?; simpl
  end; try done;
  intros H; apply write_bytes_ok in H as [Hfs _]; exists b; rewrite Hfs, lookup_insert_eq;
  (split; [done|]);
  repeat match goal with
  | H : String.eqb _ _ = true |- _ => apply String.eqb_eq in H
  | H : Z.eqb _ _ = true |- _ => apply Z.eqb_eq in H
  end; split; intros ? Hs; congruence.
Qed.

Lemma fetch_ok env r (p : path) h sz w a w' :
  (mkdir_p (parent p) ;;; conda_download env (url r) p h sz) w = Ok a w' ->
  exists b, fs w' !! p = Some (File b) /\
    (forall h', h = Some h' -> sha256_hex env b = h') /\
    (forall n, sz = Some n -> Z.of_nat (String.length b) = n).
Proof.
  unfold bind at 1. destruct (mkdir_p (parent p) w); [|done]. apply conda_download_ok.
Qed.

(** [download_package] (src/external.py): when it returns, the package file
    [destination/subdir/fn] exists and, with [verify], its content has the
    record's SHA-256 and size wherever the record gives them; only without
    [verify] can a directory stand in its place. *)
Theorem download_package_result (env : Env) (r : PackageRecord) (d : path) (verify : bool)
    (w w' : world) (a : unit)
    (Hok : download_package env r d verify w = Ok a w') :
  (exists b, fs w' !! (d ++ [subdir r; fn r] : path) = Some (File b) /\
     (verify = true ->
        (forall h, sha256 r = Some h -> sha256_hex env b = h) /\
        (forall n, size r = Some n -> Z.of_nat (String.length b) = n))) \/
  (verify = false /\ fs w' !! (d ++ [subdir r; fn r] : path) = Some Dir).
Proof.
  revert Hok. unfold download_package, path_exists, verify_file, read_bytes. cbv zeta.
  set (p := d ++ [subdir r; fn r] : path).
  assert (Hp : p <> []) by apply app_ne_nil_r.
  unfold bind at 1 2. rewrite lookup_node_cons by done. cbn beta iota.
  unfold ret at 1. cbn beta iota.
  destruct (fs w !! p) as [n|] eqn:Ep; simpl.
  - destruct verify; simpl.
    + cbv [bind ret raise]. rewrite lookup_node_cons by done. rewrite Ep. cbv beta iota.
      destruct n as [|b]; [done|]. cbv beta iota.
      destruct (bool_decide (sha256 r = Some (sha256_hex env b)) &&
                bool_decide (size r = Some (Z.of_nat (String.length b)))) eqn:Hv; simpl.
      * intros H. injection H as _ <-. left. exists b. split; [done|]. intros _.
        apply andb_true_iff in Hv as [H1 H2].
        apply bool_decide_eq_true_1 in H1, H2.
        split; intros ? H; congruence.
      * intros H. left.
        destruct (fetch_ok env r p (sha256 r) (size r) _ a w' H) as [b' [Hb' [Hh Hs]]].
        exists b'. split; [done|]. intros _. split; [apply Hh|apply Hs].
    + intros H. injection H as _ <-. destruct n as [|b].
      * right. done.
      * left. exists b. split; [done|]. discriminate.
  - intros H. left. destruct (fetch_ok _ _ _ _ _ _ _ _ H) as [b' [Hb' [Hh Hs]]].
    exists b'. split; [done|]. intros ->. split; [apply Hh|apply Hs].
Qed.

Lemma download_package_result_witness :
  let o := download_package Example.env Example.abc ["m"] true Example.empty_world in
  o = Ok tt (outcome_world o) /\
  ((exists b, fs (outcome_world o) !! (["m"] ++ [subdir Example.abc; fn Example.abc] : path) =
                Some (File b) /\
     (true = true ->
        (forall h, sha256 Example.abc = Some h -> sha256_hex Example.env b = h) /\
        (forall n, size Example.abc = Some n -> Z.of_nat (String.length b) = n))) \/
   (true = false /\
    fs (outcome_world o) !! (["m"] ++ [subdir Example.abc; fn Example.abc] : path) = Some Dir)).
Proof.
  intros o. assert (H : o = Ok tt (outcome_world o)) by (vm_compute; reflexivity).
  split; [exact H|].
  exact (download_package_result Example.env Example.abc ["m"] true Example.empty_world _ tt H).
Defined.

(** [download_package] changes the file system only at the prefixes of
    [destination/subdir] and at the package file itself. *)
Theorem download_package_frame (env : Env) (r : PackageRecord) (d : path) (verify : bool) :
  modifies_only (fun q => q ∈ prefixes (d ++ [subdir r]) \/ q = d ++ [subdir r; fn r])
    (download_package env r d verify).
Proof.
  unfold download_package, path_exists, verify_file. cbv zeta.
  rewrite parent_app2.
  repeat mo_step;
    first [ eapply mo_mono; [|apply mo_mkdir_p]; intros q Hq; left; done
          | eapply mo_mono; [|apply mo_conda_download]; intros q Hq; right; done ].
Qed.

(* ------------------------------------------------------------------------- *)
(** ** [fetch_patch_instructions] *)

Lemma mo_append_removes S data rs : modifies_only S (append_removes data rs).
Proof.
  revert data. induction rs as [|r rs IH]; intros data; simpl; [apply mo_ret|].
  apply mo_bind; [|intros; apply IH]. unfold append_remove. repeat mo_step.
Qed.

Lemma read_bytes_ok (p : path) w b w' :
  p <> [] -> read_bytes p w = Ok b w' -> w' = w /\ fs w !! p = Some (File b).
Proof.
  intros Hp. unfold read_bytes, bind. rewrite lookup_node_cons by done.
  destruct (fs w !! p) as [[|b0]|]; simpl; try done. intros H. injection H as <- <-. done.
Qed.

(** A successful run of [fetch_patch_instructions]: the body of the
    response is written, then, for a truthy [packages_to_remove], read back,
    parsed and rewritten in place. *)
Lemma fetch_patch_instructions_ok_inv env channel d s pkgs w a w' :
  let u := (channel_base_url env [channel] s ++ "/" ++ PATCH_INSTRUCTIONS)%string in
  let instr : path := d ++ [s; PATCH_INSTRUCTIONS] in
  let body := snd (http_get env u) in
  fetch_patch_instructions env channel d s pkgs w = Ok a w' ->
  if py_truthy pkgs then
    exists data0 w4 data w5,
      json_loads body = Some data0 /\
      append_removes data0 (match pkgs with Some it => py_elements it | None => [] end) w4 =
        Ok data w5 /\
      fs w' !! instr =
        Some (File (json_dumps data ++
                    substring (String.length (json_dumps data)) (String.length body) body)%string)
  else fs w' !! instr = Some (File body).
Proof.
  intros u instr body H. unfold fetch_patch_instructions in H. cbv zeta in H.
  apply ok_bind_inv in H as [c [w1 [H1 H]]]. apply requests_get_value in H1. fold u in H1.
  cbv beta in H. subst c.
  apply ok_bind_inv in H as [? [w2 [_ H]]].
  apply ok_bind_inv in H as [? [w3 [_ H]]].
  apply ok_bind_inv in H as [? [w4 [H4 H]]]. fold instr in H4.
  apply write_bytes_ok in H4 as [Hfs4 _].
  destruct (py_truthy pkgs).
  - apply ok_bind_inv in H as [? [w5 [H5 H]]]. unfold emit in H5. injection H5 as <- <-.
    apply ok_bind_inv in H as [old [w6 [H6 H]]].
    apply read_bytes_ok in H6 as [-> H6]; [|apply app_ne_nil_r]. simpl in H6.
    fold instr in H6. rewrite Hfs4, lookup_insert_eq in H6. injection H6 as <-.
    apply ok_bind_inv in H as [data0 [w7 [H7 H]]].
    fold body in H7. destruct (json_loads body) as [j|] eqn:Ej; [|done].
    injection H7 as <- <-.
    apply ok_bind_inv in H as [data [w8 [H8 H]]].
    apply write_bytes_ok in H as [Hfs _]. fold instr in Hfs.
    eexists j, _, data, w8. split; [done|]. split; [exact H8|].
    rewrite Hfs, lookup_insert_eq. done.
  - unfold ret in H. injection H as _ <-. rewrite Hfs4, lookup_insert_eq. done.
Qed.

(** [fetch_patch_instructions] (src/external.py): an error status of the GET
    raises [HTTPError] before anything is created or written. *)
Theorem fetch_patch_instructions_http_error (env : Env) (channel : string) (d : path)
    (s : string) pkgs (w : world)
    (Hbad : http_bad env (channel_base_url env [channel] s ++ "/" ++ PATCH_INSTRUCTIONS)%string
            = true) :
  let u := (channel_base_url env [channel] s ++ "/" ++ PATCH_INSTRUCTIONS)%string in
  fetch_patch_instructions env channel d s pkgs w =
    Err (HTTPError (fst (http_get env u))) (mkWorld (fs w) (trace w ++ [EGet u])).
Proof.
  intros u. unfold fetch_patch_instructions, requests_get, bind, emit, http_bad in *.
  cbv zeta. fold u in Hbad |- *. destruct (http_get env u) as [st c]. simpl in Hbad |- *.
  rewrite Hbad. done.
Qed.

Lemma fetch_patch_instructions_http_error_witness :
  http_bad Example.env_404
    (channel_base_url Example.env_404 ["main"] "linux-64" ++ "/" ++ PATCH_INSTRUCTIONS)%string
    = true /\
  let u := (channel_base_url Example.env_404 ["main"] "linux-64" ++ "/" ++ PATCH_INSTRUCTIONS)%string in
  fetch_patch_instructions Example.env_404 "main" ["d"] "linux-64" None Example.empty_world =
    Err (HTTPError (fst (http_get Example.env_404 u)))
      (mkWorld (fs Example.empty_world) (trace Example.empty_world ++ [EGet u])).
Proof.
  assert (H : http_bad Example.env_404
    (channel_base_url Example.env_404 ["main"] "linux-64" ++ "/" ++ PATCH_INSTRUCTIONS)%string
    = true) by reflexivity.
  split; [exact H|].
  exact (fetch_patch_instructions_http_error Example.env_404 "main" ["d"] "linux-64" None
           Example.empty_world H).
Defined.

(** Without packages to remove (no argument, or an empty sequence), a
    successful [fetch_patch_instructions] leaves exactly the response body in
    [destination/subdir/patch_instructions.json]. *)
Theorem fetch_patch_instructions_writes_body (env : Env) (channel : string) (d : path)
    (s : string) pkgs (w w' : world) (a : unit)
    (Hpkgs : py_truthy pkgs = false)
    (Hok : fetch_patch_instructions env channel d s pkgs w = Ok a w') :
  fs w' !! (d ++ [s; PATCH_INSTRUCTIONS] : path) =
    Some (File (snd (http_get env (channel_base_url env [channel] s ++ "/" ++ PATCH_INSTRUCTIONS)%string))).
Proof.
  pose proof (fetch_patch_instructions_ok_inv env channel d s pkgs w a w' Hok) as H.
  cbv zeta in H. rewrite Hpkgs in H. exact H.
Qed.

Lemma fetch_patch_instructions_writes_body_witness :
  let o := fetch_patch_instructions Example.env "main" ["d"] "linux-64" (Some (PySeq []))
             Example.empty_world in
  py_truthy (Some (@PySeq PackageRecord [])) = false /\ o = Ok tt (outcome_world o) /\
  fs (outcome_world o) !! (["d"] ++ ["linux-64"; PATCH_INSTRUCTIONS] : path) =
    Some (File (snd (http_get Example.env
                       (channel_base_url Example.env ["main"] "linux-64" ++ "/" ++ PATCH_INSTRUCTIONS)%string))).
Proof.
  intros o. assert (H1 : py_truthy (Some (@PySeq PackageRecord [])) = false) by reflexivity.
  assert (H2 : o = Ok tt (outcome_world o)) by (vm_compute; reflexivity).
  split; [exact H1|]. split; [exact H2|].
  exact (fetch_patch_instructions_writes_body Example.env "main" ["d"] "linux-64" _
           Example.empty_world _ tt H1 H2).
Defined.

(** [fetch_patch_instructions] changes the file system only at the prefixes
    of [destination/subdir] and at the instructions file. *)
Theorem fetch_patch_instructions_frame (env : Env) (channel : string) (d : path) (s : string)
    pkgs :
  modifies_only (fun q => q ∈ prefixes (d ++ [s]) \/ q = d ++ [s; PATCH_INSTRUCTIONS])
    (fetch_patch_instructions env channel d s pkgs).
Proof.
  unfold fetch_patch_instructions. cbv zeta. rewrite parent_app2.
  apply mo_bind; [apply mo_requests_get|intros c].
  apply mo_bind.
  { eapply mo_mono; [|apply mo_mkdir_p]. intros q Hq. left.
    apply elem_of_prefixes in Hq as [Hne [r ->]]. apply elem_of_prefixes.
    split; [done|]. exists (r ++ [s]). rewrite app_assoc. done. }
  intros _. apply mo_bind.
  { eapply mo_mono; [|apply mo_mkdir_p]. intros q Hq. left. done. }
  intros _. apply mo_bind.
  { eapply mo_mono; [|apply mo_write_bytes]. intros q Hq. right. done. }
  intros _. repeat mo_step; try apply mo_append_removes.
  eapply mo_mono; [|apply mo_write_bytes]. intros q Hq. right. done.
Qed.

(* ------------------------------------------------------------------------- *)
(** ** [update_index] *)

Lemma bind_ok_l {A B} (m : M A) (k : A -> M B) w a w1 :
  m w = Ok a w1 -> bind m k w = k a w1.
Proof. unfold bind. intros ->. done. Qed.

Lemma bind_err_l {A B} (m : M A) (k : A -> M B) w e w1 :
  m w = Err e w1 -> bind m k w = Err e w1.
Proof. unfold bind. intros ->. done. Qed.

Lemma read_bytes_file (p : path) w b :
  p <> [] -> fs w !! p = Some (File b) -> read_bytes p w = Ok b w.
Proof. intros Hp Hb. unfold read_bytes, bind. rewrite lookup_node_cons, Hb by done. done. Qed.

Lemma tar_add_file (p arc : path) w b :
  p <> [] -> fs w !! p = Some (File b) -> tar_add p arc w = Ok {[ arc := File b ]} w.
Proof. intros Hp Hb. unfold tar_add, bind. rewrite lookup_node_cons, Hb by done. done. Qed.

Lemma tar_add_missing (p arc : path) w :
  p <> [] -> fs w !! p = None -> tar_add p arc w = Err (FileNotFoundError p) w.
Proof. intros Hp Hb. unfold tar_add, bind. rewrite lookup_node_cons, Hb by done. done. Qed.

Lemma tar_patches_ok (target : path) (ss : list string) (contents : string -> string) w :
  (forall s, s ∈ ss -> fs w !! (target ++ [s; PATCH_INSTRUCTIONS] : path) = Some (File (contents s))) ->
  mapM (fun patch => tar_add (target ++ patch) patch) (map (fun s => [s; PATCH_INSTRUCTIONS]) ss) w =
  Ok (map (fun s => {[ [s; PATCH_INSTRUCTIONS] := File (contents s) ]}) ss) w.
Proof.
  induction ss as [|s ss IH]; intros H; simpl; [done|].
  rewrite bind_ok_l with (a := {[ [s; PATCH_INSTRUCTIONS] := File (contents s) ]}) (w1 := w).
  - rewrite bind_ok_l
      with (a := map (fun s => {[ [s; PATCH_INSTRUCTIONS] := File (contents s) ]}) ss) (w1 := w)
      by (apply IH; intros s' Hs'; apply H, elem_of_cons; right; done). done.
  - apply tar_add_file; [apply app_ne_nil_r|]. apply H, elem_of_cons. left. done.
Qed.

Lemma tar_patches_missing (target : path) (ss : list string) w :
  (forall s, s ∈ ss -> fs w !! (target ++ [s; PATCH_INSTRUCTIONS] : path) <> Some Dir) ->
  (exists s, s ∈ ss /\ fs w !! (target ++ [s; PATCH_INSTRUCTIONS] : path) = None) ->
  exists s, s ∈ ss /\ fs w !! (target ++ [s; PATCH_INSTRUCTIONS] : path) = None /\
    mapM (fun patch => tar_add (target ++ patch) patch) (map (fun s => [s; PATCH_INSTRUCTIONS]) ss) w =
    Err (FileNotFoundError (target ++ [s; PATCH_INSTRUCTIONS])) w.
Proof.
  induction ss as [|s ss IH]; intros Hnd [s' [Hin Hs']].
  - by apply not_elem_of_nil in Hin.
  - simpl.
    destruct (fs w !! (target ++ [s; PATCH_INSTRUCTIONS] : path)) as [[|b]|] eqn:E.
    + exfalso. apply (Hnd s); [apply elem_of_cons; left|]; done.
    + apply elem_of_cons in Hin as [->|Hin]; [congruence|].
      destruct IH as [s0 [Hs0 [Hn0 Hm0]]].
      * intros s1 Hs1. apply Hnd, elem_of_cons. right. done.
      * eauto.
      * exists s0. split; [apply elem_of_cons; right; done|]. split; [done|].
        rewrite bind_ok_l with (a := {[ [s; PATCH_INSTRUCTIONS] := File b ]}) (w1 := w).
        -- rewrite bind_err_l with (e := FileNotFoundError (target ++ [s0; PATCH_INSTRUCTIONS]))
             (w1 := w) by exact Hm0. done.
        -- apply tar_add_file; [apply app_ne_nil_r|done].
    + exists s. split; [apply elem_of_cons; left; done|]. split; [done|].
      rewrite bind_err_l with (e := FileNotFoundError (target ++ [s; PATCH_INSTRUCTIONS]))
        (w1 := w); [done|].
      apply tar_add_missing; [apply app_ne_nil_r|done].
Qed.

(** [update_index] (src/external.py): when every [target/subdir/patch_instructions.json]
    is a file, it adds each of them, in the order of [subdirs], as the one
    member [subdir/patch_instructions.json] of the patch-generator tarball,
    then runs the indexer of conda-build on [target] with that tarball and
    [progress = not silent]; the file system is then what the indexer makes
    of it. *)
Theorem update_index_packs_patches (env : Env) (target : path) (ss : list string)
    (silent : bool) (contents : string -> string) (w : world)
    (Hne : ss <> [])
    (Hfiles : forall s, s ∈ ss ->
       fs w !! (target ++ [s; PATCH_INSTRUCTIONS] : path) = Some (File (contents s))) :
  let tarball := tmpdir env ++ ["patch_generator.tar.bz2"] in
  update_index env target (Some ss) silent w =
    Ok tt (mkWorld (conda_index env target (Some tarball) (negb silent) (fs w))
             (trace w ++ [ETar tarball (map (fun s => {[ [s; PATCH_INSTRUCTIONS] := File (contents s) ]}) ss);
                          EIndex target (Some tarball) (negb silent)])).
Proof.
  intros tarball. unfold update_index. cbv zeta.
  destruct ss as [|s0 ss']; [done|]. fold tarball.
  cbn [map]. unfold bind at 1 2. rewrite (tar_patches_ok target (s0 :: ss') contents) by done.
  cbv [bind emit ret conda_build_update_index]. simpl. rewrite <- app_assoc. done.
Qed.

Lemma update_index_packs_patches_witness :
  ["noarch"] <> [] /\
  (forall s, s ∈ ["noarch"] ->
     fs Example.index_world !! (["m"] ++ [s; PATCH_INSTRUCTIONS] : path) = Some (File ((fun _ => "{}") s))) /\
  let tarball := tmpdir Example.env ++ ["patch_generator.tar.bz2"] in
  update_index Example.env ["m"] (Some ["noarch"]) false Example.index_world =
    Ok tt (mkWorld (conda_index Example.env ["m"] (Some tarball) (negb false) (fs Example.index_world))
             (trace Example.index_world ++
                [ETar tarball (map (fun s => {[ [s; PATCH_INSTRUCTIONS] := File ((fun _ => "{}") s) ]})
                                 ["noarch"]);
                 EIndex ["m"] (Some tarball) (negb false)])).
Proof.
  assert (H1 : ["noarch"] <> []) by discriminate.
  assert (H2 : forall s, s ∈ ["noarch"] ->
     fs Example.index_world !! (["m"] ++ [s; PATCH_INSTRUCTIONS] : path) = Some (File ((fun _ => "{}") s))).
  { intros s Hs. apply list_elem_of_singleton in Hs. subst s. vm_compute. reflexivity. }
  split; [exact H1|]. split; [exact H2|].
  exact (update_index_packs_patches Example.env ["m"] ["noarch"] false (fun _ => "{}")
           Example.index_world H1 H2).
Defined.

(** When one of the patch-instruction files is missing (and none of them is
    a directory), [update_index] raises [FileNotFoundError] for the first
    missing one, in the order of [subdirs], before the indexer runs and
    without any other effect. *)
Theorem update_index_missing_patch (env : Env) (target : path) (ss : list string)
    (silent : bool) (w : world)
    (Hnodir : forall s, s ∈ ss -> fs w !! (target ++ [s; PATCH_INSTRUCTIONS] : path) <> Some Dir)
    (Hmissing : exists s, s ∈ ss /\ fs w !! (target ++ [s; PATCH_INSTRUCTIONS] : path) = None) :
  exists s, s ∈ ss /\ fs w !! (target ++ [s; PATCH_INSTRUCTIONS] : path) = None /\
    update_index env target (Some ss) silent w =
      Err (FileNotFoundError (target ++ [s; PATCH_INSTRUCTIONS])) w.
Proof.
  destruct (tar_patches_missing target ss w Hnodir Hmissing) as [s [Hs [Hn Hm]]].
  exists s. split; [done|]. split; [done|].
  unfold update_index. cbv zeta.
  destruct ss as [|s0 ss']; [by apply not_elem_of_nil in Hs|].
  rewrite bind_err_l with (e := FileNotFoundError (target ++ [s; PATCH_INSTRUCTIONS])) (w1 := w);
    [done|].
  cbn [map]. apply bind_err_l. exact Hm.
Qed.

Lemma update_index_missing_patch_witness :
  (forall s, s ∈ ["noarch"; "linux-64"] ->
     fs Example.index_world !! (["m"] ++ [s; PATCH_INSTRUCTIONS] : path) <> Some Dir) /\
  (exists s, s ∈ ["noarch"; "linux-64"] /\
     fs Example.index_world !! (["m"] ++ [s; PATCH_INSTRUCTIONS] : path) = None) /\
  exists s, s ∈ ["noarch"; "linux-64"] /\
    fs Example.index_world !! (["m"] ++ [s; PATCH_INSTRUCTIONS] : path) = None /\
    update_index Example.env ["m"] (Some ["noarch"; "linux-64"]) false Example.index_world =
      Err (FileNotFoundError (["m"] ++ [s; PATCH_INSTRUCTIONS])) Example.index_world.
Proof.
  assert (H1 : forall s, s ∈ ["noarch"; "linux-64"] ->
     fs Example.index_world !! (["m"] ++ [s; PATCH_INSTRUCTIONS] : path) <> Some Dir).
  { intros s Hs. apply elem_of_cons in Hs as [->|Hs];
      [|apply list_elem_of_singleton in Hs as ->]; vm_compute; discriminate. }
  assert (H2 : exists s, s ∈ ["noarch"; "linux-64"] /\
     fs Example.index_world !! (["m"] ++ [s; PATCH_INSTRUCTIONS] : path) = None).
  { exists "linux-64". split; [apply elem_of_cons; right; apply list_elem_of_singleton; done|].
    vm_compute. reflexivity. }
  split; [exact H1|]. split; [exact H2|].
  exact (update_index_missing_patch Example.env ["m"] ["noarch"; "linux-64"] false
           Example.index_world H1 H2).
Defined.

(* ------------------------------------------------------------------------- *)
(** ** [merge] *)

Section MergeCopy.
Variables (local patch : string).

Lemma relative_to_app (p r : path) : relative_to (p ++ r) p = r.
Proof. unfold relative_to. apply drop_app_length. Qed.

Lemma merge_destination_app r : merge_destination local patch (Path patch ++ r) = Path local ++ r.
Proof. unfold merge_destination. rewrite relative_to_app. done. Qed.

Hypothesis Hlocal : forall r, Path local <> Path patch ++ r.
Hypothesis Hpatch : forall r, Path patch <> Path local ++ r.

Lemma local_not_under_patch x y : Path local ++ x <> Path patch ++ y.
Proof.
  intros H. apply app_eq_app in H as [l [[H _]|[H _]]].
  - apply (Hlocal l). done.
  - apply (Hpatch l). done.
Qed.

Lemma merge_destination_inj f g rf rg :
  f = Path patch ++ rf -> g = Path patch ++ rg ->
  merge_destination local patch f = merge_destination local patch g -> f = g.
Proof.
  intros -> ->. rewrite !merge_destination_app. intros H. apply app_inv_head in H. congruence.
Qed.

(** One iteration of the copy loop of [merge]. *)
Lemma merge_copy_step (f : path) w a w1 :
  f <> [] -> merge_destination local patch f <> [] ->
  (forall b, fs w !! f = Some (File b) -> fs w !! merge_destination local patch f <> Some Dir) ->
  (n <- lookup_node f ;;
   if is_file_node n then shutil_copy f (Path local ++ relative_to f (Path patch)) else ret tt) w
    = Ok a w1 ->
  fs w1 = match fs w !! f with
          | Some (File b) => <[merge_destination local patch f := File b]> (fs w)
          | _ => fs w
          end.
Proof.
  intros Hf Hd Hnd H. apply ok_bind_inv in H as [n [w2 [H1 H]]].
  rewrite lookup_node_cons in H1 by done. injection H1 as <- <-.
  destruct (fs w !! f) as [[|b]|] eqn:Ef; simpl in H; try (injection H as _ <-; done).
  unfold shutil_copy in H. rewrite bind_ok_l with (a := b) (w1 := w) in H
    by (apply read_bytes_file; done).
  fold (merge_destination local patch f) in H.
  rewrite bind_ok_l with (a := fs w !! merge_destination local patch f) (w1 := w) in H
    by (apply lookup_node_cons; done).
  destruct (fs w !! merge_destination local patch f) as [[|b']|] eqn:Ed.
  - exfalso. apply (Hnd b); done.
  - apply write_bytes_ok in H as [-> _]. done.
  - apply write_bytes_ok in H as [-> _]. done.
Qed.

(** The copy loop, run from [w] on patch files taken from [w0]. *)
Lemma merge_copy_loop w0 (files : list path) :
  List.NoDup files ->
  (forall f, In f files -> exists r, f = Path patch ++ r /\ r <> []) ->
  (forall f b, In f files -> fs w0 !! f = Some (File b) ->
     fs w0 !! merge_destination local patch f <> Some Dir) ->
  forall w a w',
  (forall q : path, (exists y, q = Path patch ++ y) -> fs w !! q = fs w0 !! q) ->
  (forall q : path, fs w !! q = Some Dir -> fs w0 !! q = Some Dir) ->
  mapM_ (fun file =>
           n <- lookup_node file ;;
           if is_file_node n then shutil_copy file (Path local ++ relative_to file (Path patch))
           else ret tt) files w = Ok a w' ->
  (forall f b, In f files -> fs w0 !! f = Some (File b) ->
     fs w' !! merge_destination local patch f = Some (File b)) /\
  (forall q : path, (exists y, q = Path patch ++ y) -> fs w' !! q = fs w0 !! q) /\
  (forall q : path, fs w' !! q = Some Dir -> fs w0 !! q = Some Dir) /\
  (forall q : path, (forall f, In f files -> q <> merge_destination local patch f) ->
     fs w' !! q = fs w !! q).
Proof.
  induction files as [|f files IH]; intros Hnd Hunder Hnodir w a w' Hp Hdir H.
  - simpl in H. injection H as _ <-. split; [intros ? ? []|]. auto.
  - inversion Hnd as [|? ? Hnin Hnd']; subst.
    simpl in H. apply ok_bind_inv in H as [u [w1 [H1 H]]].
    destruct (Hunder f (or_introl eq_refl)) as [rf [-> Hrf]].
    assert (Hfne : Path patch ++ rf <> []) by (destruct rf; [done|apply app_ne_nil_r]).
    assert (Hdne : merge_destination local patch (Path patch ++ rf) <> []).
    { rewrite merge_destination_app. destruct rf; [done|apply app_ne_nil_r]. }
    assert (Hdnu : forall y, merge_destination local patch (Path patch ++ rf) <> Path patch ++ y).
    { intros y. rewrite merge_destination_app. apply local_not_under_patch. }
    apply merge_copy_step in H1; [|done|done|].
    2:{ intros b Hb Hd. apply Hdir in Hd. rewrite Hp in Hb by eauto.
        apply (Hnodir _ b (or_introl eq_refl)); done. }
    rewrite Hp in H1 by eauto.
    assert (Hp1 : forall q : path, (exists y, q = Path patch ++ y) -> fs w1 !! q = fs w0 !! q).
    { intros q [y ->]. rewrite H1. destruct (fs w0 !! (Path patch ++ rf : path)) as [[|b]|];
        try (apply Hp; eauto).
      rewrite lookup_insert_ne by (intros E; apply (Hdnu y); done). apply Hp. eauto. }
    assert (Hdir1 : forall q : path, fs w1 !! q = Some Dir -> fs w0 !! q = Some Dir).
    { intros q. rewrite H1. destruct (fs w0 !! (Path patch ++ rf : path)) as [[|b]|]; try apply Hdir.
      destruct (decide (q = merge_destination local patch (Path patch ++ rf))) as [->|Hne].
      - rewrite lookup_insert_eq. discriminate.
      - rewrite lookup_insert_ne by congruence. apply Hdir. }
    destruct (IH Hnd' (fun g Hg => Hunder g (or_intror Hg))
                (fun g b Hg => Hnodir g b (or_intror Hg)) w1 a w' Hp1 Hdir1 H)
      as [Hc [Hp' [Hdir' Hfr]]].
    split; [|split; [done|split; [done|]]].
    + intros g b [<-|Hg] Hb; [|apply Hc; done].
      rewrite Hfr.
      * rewrite H1, Hb, lookup_insert_eq. done.
      * intros g' Hg' E. destruct (Hunder g' (or_intror Hg')) as [rg [Eg _]].
        apply (merge_destination_inj _ _ _ _ eq_refl Eg) in E. subst g'.
        apply Hnin. apply list_elem_of_In. done.
    + intros q Hq. rewrite Hfr by (intros g Hg; apply Hq; right; done).
      rewrite H1. rewrite <- (Hp (Path patch ++ rf : path)) by eauto.
      destruct (fs w !! (Path patch ++ rf : path)) as [[|b]|]; try done.
      apply lookup_insert_ne. intros E. apply (Hq _ (or_introl eq_refl)). done.
Qed.

End MergeCopy.

(** [merge] (src/api.py) without [index]: when [local] and [patch] are not
    nested in each other and no destination of a patch file is a directory,
    a successful [merge] leaves every file below [patch] copied, with its
    content, to the same relative path below [local], whatever the order of
    the files. *)
Theorem merge_copies_patch_files (env : Env) (local patch : string) (progress : bool)
    (w w' : world) (a : unit)
    (Hlocal : forall r, Path local <> Path patch ++ r)
    (Hpatch : forall r, Path patch <> Path local ++ r)
    (Hnodir : forall (f : path) b, (exists r, f = Path patch ++ r /\ r <> []) ->
       fs w !! f = Some (File b) -> fs w !! merge_destination local patch f <> Some Dir)
    (Hok : merge env local patch false progress w = Ok a w') :
  forall (f : path) b, (exists r, f = Path patch ++ r /\ r <> []) -> fs w !! f = Some (File b) ->
    fs w' !! merge_destination local patch f = Some (File b).
Proof.
  intros f b Hf Hb. unfold merge in Hok. cbv zeta in Hok.
  apply ok_bind_inv in Hok as [files [w1 [Hg Hok]]]. unfold glob_all in Hg.
  injection Hg as Hfiles <-.
  apply ok_bind_inv in Hok as [u [w2 [Hloop Hidx]]].
  set (keys := map fst (map_to_list (fs w))) in Hfiles.
  assert (Hkeys : List.NoDup keys).
  { apply NoDup_ListNoDup. exact (NoDup_fst_map_to_list (fs w)). }
  assert (Hin : forall g, In g files -> exists r, g = Path patch ++ r /\ r <> []).
  { intros g Hg. rewrite <- Hfiles in Hg. apply filter_In in Hg as [_ Hg].
    apply bool_decide_eq_true_1 in Hg as [[r ->] Hl].
    exists r. split; [done|]. intros ->. rewrite app_nil_r in Hl. lia. }
  destruct (merge_copy_loop local patch Hlocal Hpatch w files)
    with (w := w) (a := u) (w' := w2) as [Hc _]; try done.
  - rewrite <- Hfiles. apply List.NoDup_filter. done.
  - intros g b' Hg Hb'. apply (Hnodir g b'); [apply Hin|]; done.
  - assert (Hw' : fs w' = fs w2) by (injection Hidx as _ <-; done).
    rewrite Hw'. apply Hc; [|done]. rewrite <- Hfiles. apply filter_In. split.
    + apply in_map_iff. exists (f, File b). split; [done|].
      apply list_elem_of_In, elem_of_map_to_list. done.
    + apply bool_decide_eq_true_2. destruct Hf as [r [-> Hr]]. split.
      * exists r. done.
      * rewrite length_app. destruct r; [done|]. simpl. lia.
Qed.

Lemma merge_copies_patch_files_witness :
  let o := merge Example.env "m" "p" false false Example.merge_world in
  (forall r, Path "m" <> Path "p" ++ r) /\
  (forall r, Path "p" <> Path "m" ++ r) /\
  (forall (f : path) b, (exists r, f = Path "p" ++ r /\ r <> []) ->
     fs Example.merge_world !! f = Some (File b) ->
     fs Example.merge_world !! merge_destination "m" "p" f <> Some Dir) /\
  o = Ok tt (outcome_world o) /\
  forall (f : path) b, (exists r, f = Path "p" ++ r /\ r <> []) -> fs Example.merge_world !! f = Some (File b) ->
    fs (outcome_world o) !! merge_destination "m" "p" f = Some (File b).
Proof.
  intros o.
  assert (H1 : forall r, Path "m" <> Path "p" ++ r) by (intros r H; vm_compute in H; inversion H).
  assert (H2 : forall r, Path "p" <> Path "m" ++ r) by (intros r H; vm_compute in H; inversion H).
  assert (H3 : forall (f : path) b, (exists r, f = Path "p" ++ r /\ r <> []) ->
     fs Example.merge_world !! f = Some (File b) ->
     fs Example.merge_world !! merge_destination "m" "p" f <> Some Dir).
  { intros f b _ Hb. apply elem_of_list_to_map_2 in Hb.
    repeat (apply elem_of_cons in Hb as [Hb|Hb]; [inversion Hb; subst; clear Hb|]).
    - vm_compute. discriminate.
    - by apply not_elem_of_nil in Hb. }
  assert (H4 : o = Ok tt (outcome_world o)) by (vm_compute; reflexivity).
  split; [exact H1|]. split; [exact H2|]. split; [exact H3|]. split; [exact H4|].
  exact (merge_copies_patch_files Example.env "m" "p" false Example.merge_world _ tt H1 H2 H3 H4).
Defined.

(** [merge] writes only inside [local]: nothing outside the local channel
    directory, in particular nothing of a patch directory beside it, is
    ever changed, whether or not it succeeds. *)
Theorem merge_writes_only_below_local (env : Env) (local patch : string) (index progress : bool) :
  modifies_only (fun q => exists r, q = Path local ++ r) (merge env local patch index progress).
Proof.
  unfold merge. cbv zeta. apply mo_bind; [intros w q _; done|intros files].
  apply mo_bind.
  - apply mo_mapM_. intros f _. apply mo_bind; [apply mo_lookup_node|intros n].
    destruct (is_file_node n); [|apply mo_ret].
    unfold shutil_copy. apply mo_bind; [apply mo_read_bytes|intros data].
    apply mo_bind; [apply mo_lookup_node|intros n'].
    eapply mo_mono; [|apply mo_write_bytes]. intros q ->.
    destruct (is_dir_node n'); eexists; [rewrite <- app_assoc|]; reflexivity.
  - intros _. destruct index; [apply mo_raise|apply mo_ret].
Qed.

(* ------------------------------------------------------------------------- *)
(** ** [diff] *)


